(** * Process runner of the MultiplayerSample export script

    A shallow embedding of [ExportScripts/export_standalone_monolithic_windows.py]:
    [enqueue_output], [safe_kill_processes], the class [CLICommand]
    ([_poll_process], [_cleanup_process], [run]) and [process_command].

    The Python code is effectful: it raises and catches exceptions, writes to
    loggers, mutates the attributes of the [CLICommand] object, and talks to
    a child process through two pipes, a reader thread and a queue.  The
    embedding keeps these effects explicit:

    - exceptions and logging live in a state-and-exception monad [M];
    - the operations of a [Popen] object are an interface ([ProcessAPI]),
      with two instances: a clocked process table (module [Timed]), where
      [wait(timeout=30)] consumes time, and the world of one running command
      (module [Runner]), where the child, the reader thread and the calling
      thread interleave as a schedule dictates.

    What the embedding takes for granted about the platform:

    - a logging call returns (the handlers of [logging] report their own
      errors and do not raise them);
    - only exceptions deriving from [Exception] occur (no
      [KeyboardInterrupt]);
    - a child performs finitely many writes and then exits, and leaves no
      process of its own behind that holds its pipes open;
    - a pipe holds a fixed number of bytes: a write to the standard-error
      pipe, which nobody reads while the child runs, waits until it fits
      into the pipe; the standard-output pipe is emptied by the stream of
      the reader thread as the child fills it, and is taken together with
      the buffer of that stream, which has no bound;
    - a child whose pipes are closed under it goes on to its exit;
    - [bytes.decode], [str.split], [Popen.poll], [Popen.kill] and
      [Popen.wait] behave as in CPython 3 ([kill] and [wait] do nothing
      more once [returncode] is set). *)

From Stdlib Require Import ZArith NArith List Strings.String Strings.Byte Lia Bool.
From stdpp Require Import base gmap.

Set Default Proof Using "Type".
Open Scope list_scope.

(** ** Exceptions, outcomes and the monad *)

(** The exception classes the code can meet.  All of them derive from
    [Exception], so a bare [except Exception] catches each of them. *)
Inductive exn : Type :=
| Empty                 (* queue.Empty *)
| TimeoutExpired        (* subprocess.TimeoutExpired *)
| FileNotFoundError
| PermissionError
| OSError
| IndexError
| ValueError            (* an operation on a closed file *)
| UnicodeDecodeError.

Definition is_Empty (e : exn) : bool :=
  match e with Empty => true | _ => false end.

(** What a primitive of the platform answers: a value or a raised exception. *)
Definition answer (A : Type) : Type := (exn + A)%type.

(** What a piece of Python code does: return, raise, or (for the [while]
    loops, which are run with a bound on their iterations) fail to finish
    within the bound. *)
Inductive outcome (A : Type) : Type :=
| Ret (a : A)
| Exc (e : exn)
| Stuck.
Arguments Ret {A} a.
Arguments Exc {A} e.
Arguments Stuck {A}.

(** Python [str]: a sequence of code points. *)
Definition pystr : Type := list N.

Definition str_of_bytes (bs : list byte) : pystr := map Byte.to_N bs.
Definition str (s : string) : pystr := str_of_bytes (list_byte_of_string s).

(** Loggers: the root logger ([logging.getLogger()], [logging.error]) and
    named ones ([logging.getLogger('o3de.gamejam')]). *)
Inductive logger_id : Type :=
| RootLogger
| NamedLogger (name : string).

Definition logger : logger_id := NamedLogger "o3de.gamejam".

Inductive level : Type := INFO | WARNING | ERROR.

(** The messages of the script, one constructor per format string. *)
Inductive message : Type :=
| MsgRunning (arg0 : string) (pid : nat) (args : list string)
    (* "Running process '{args[0]}' with PID({pid}): {args}" *)
| MsgTerminating (arg0 : string) (pid : nat)
    (* "Terminating process '{args[0]}' with PID({pid})" *)
| MsgTerminated (arg0 : string) (pid : nat) (returncode : option Z)
    (* "process '{args[0]}' with PID({pid}) terminated with exit code {returncode}" *)
| MsgOnTerminateFailed (e : exn)
    (* "Exception encountered with termination request, with stacktrace:" *)
| MsgKillFailed (e : exn)
    (* "Unexpected exception ignored while terminating process, with stacktrace:" *)
| MsgWaitFailed (e : exn)
    (* "Unexpected exception while waiting for processes to terminate, with stacktrace:" *)
| MsgText (s : pystr)
    (* a decoded output line, or the decoded standard-error block *)
| MsgException (e : exn)
    (* logger.error(err) *)
| MsgNoArguments.
    (* "function `process_command` must be supplied a non-empty list of arguments" *)

Record log_record : Type := LogRecord {
  rec_logger : logger_id;
  rec_level : level;
  rec_msg : message
}.

Section Monad.
Context {W : Type}.

(** The state threaded through the code: the world [W] of processes and
    objects, and everything logged so far (oldest first). *)
Record store : Type := Store {
  world : W;
  log : list log_record
}.

Definition M (A : Type) : Type := store -> outcome A * store.

Definition ret {A} (a : A) : M A := fun s => (Ret a, s).
Definition raise {A} (e : exn) : M A := fun s => (Exc e, s).
Definition stuck {A} : M A := fun s => (Stuck, s).

Definition bind {A B} (m : M A) (k : A -> M B) : M B :=
  fun s =>
    match m s with
    | (Ret a, s') => k a s'
    | (Exc e, s') => (Exc e, s')
    | (Stuck, s') => (Stuck, s')
    end.

(** [try: body / except Exception as e: handler e]. *)
Definition try_except {A} (body : M A) (handler : exn -> M A) : M A :=
  fun s =>
    match body s with
    | (Exc e, s') => handler e s'
    | r => r
    end.

(** A platform primitive acting on the world only. *)
Definition prim {A} (f : W -> answer A * W) : M A :=
  fun s =>
    match f (world s) with
    | (inr a, w') => (Ret a, Store w' (log s))
    | (inl e, w') => (Exc e, Store w' (log s))
    end.

(** Reading the world. *)
Definition gets {A} (f : W -> A) : M A := fun s => (Ret (f (world s)), s).

(** Updating the world. *)
Definition modify (f : W -> W) : M unit :=
  fun s => (Ret tt, Store (f (world s)) (log s)).

(** [lg.info(msg)], [lg.warning(msg)], [lg.error(msg)]. *)
Definition emit (lg : logger_id) (lv : level) (msg : message) : M unit :=
  fun s => (Ret tt, Store (world s) (log s ++ [LogRecord lg lv msg])).

(** [for x in xs: body x]. *)
Fixpoint for_each {A} (xs : list A) (body : A -> M unit) : M unit :=
  match xs with
  | [] => ret tt
  | x :: xs' => bind (body x) (fun _ => for_each xs' body)
  end.

(** [xs[0]] on a list. *)
Definition subscript0 {A} (xs : list A) : M A :=
  match xs with
  | [] => raise IndexError
  | x :: _ => ret x
  end.
End Monad.
Arguments store W : clear implicits.
Arguments M W A : clear implicits.

Declare Scope py_scope.
Delimit Scope py_scope with py.
Notation "x <- m ;; k" := (bind m (fun x => k))
  (at level 100, m at next level, right associativity) : py_scope.
Notation "m ;; k" := (bind m (fun _ => k))
  (at level 100, right associativity) : py_scope.
Open Scope py_scope.

(** ** The interface of a started process

    [safe_kill_processes] only uses [proc.args], [proc.pid],
    [proc.returncode], [proc.kill()] and [proc.wait(timeout=...)]. *)

(** A [Popen] object: its identity and the attributes fixed at creation. *)
Record popen : Type := Popen {
  p_args : list string;
  p_pid : nat
}.

Class ProcessAPI (W : Type) : Type := {
  proc_returncode : popen -> W -> option Z;
  proc_kill : popen -> W -> answer unit * W;
  proc_wait : popen -> nat -> W -> answer Z * W
}.

Section SafeKill.
Context {W : Type} `{ProcessAPI W}.

(** The nested function [on_terminate]. *)
Definition on_terminate (process_logger : logger_id) (proc : popen) : M W unit :=
  try_except
    (arg0 <- subscript0 (p_args proc) ;;
     rc <- gets (proc_returncode proc) ;;
     emit process_logger INFO (MsgTerminated arg0 (p_pid proc) rc))
    (fun e => emit process_logger ERROR (MsgOnTerminateFailed e)).

Definition safe_kill_processes (processes : list popen)
    (process_logger : option logger_id) : M W unit :=
  let process_logger :=
    match process_logger with Some lg => lg | None => logger end in
  for_each processes (fun proc =>
    try_except
      (arg0 <- subscript0 (p_args proc) ;;
       emit process_logger INFO (MsgTerminating arg0 (p_pid proc)) ;;
       prim (proc_kill proc))
      (fun e => emit process_logger ERROR (MsgKillFailed e))) ;;
  try_except
    (for_each processes (fun proc =>
       _ <- prim (proc_wait proc 30) ;;
       on_terminate process_logger proc))
    (fun e => emit process_logger ERROR (MsgWaitFailed e)).
End SafeKill.

(** ** Python primitives on [bytes] and [str] *)

Module Py.

(** What the UTF-8 decoder finds in a byte string, left to right: a
    character, or a run of [len] bytes that is not the start of any
    well-formed sequence (CPython reports such a run to the error
    handler and resumes after it). *)
Inductive item : Type :=
| Char (c : N)
| Bad (len : nat).

Definition is_continuation (b : N) : bool := ((0x80 <=? b) && (b <? 0xC0))%N.

(** CPython's UTF-8 decoder: shortest form only, no surrogates, nothing
    above U+10FFFF; a faulty sequence is reported up to, and without, the
    first byte that cannot continue it, and decoding resumes at that byte. *)
Fixpoint utf8_scan (bs : list byte) : list item :=
  match bs with
  | [] => []
  | b0 :: t0 =>
    let ch := Byte.to_N b0 in
    if (ch <? 0x80)%N then Char ch :: utf8_scan t0
    else if (ch <? 0xC2)%N then Bad 1 :: utf8_scan t0
    else if (ch <? 0xE0)%N then
      match t0 with
      | [] => [Bad 1]
      | b1 :: t1 =>
        let ch2 := Byte.to_N b1 in
        if is_continuation ch2
        then Char (N.shiftl ch 6 + ch2 - (N.shiftl 0xC0 6 + 0x80))%N :: utf8_scan t1
        else Bad 1 :: utf8_scan t0
      end
    else if (ch <? 0xF0)%N then
      match t0 with
      | [] => [Bad 1]
      | b1 :: t1 =>
        let ch2 := Byte.to_N b1 in
        if negb (is_continuation ch2)
           || (if (ch2 <? 0xA0)%N then (ch =? 0xE0)%N else (ch =? 0xED)%N)
        then Bad 1 :: utf8_scan t0
        else
          match t1 with
          | [] => [Bad 2]
          | b2 :: t2 =>
            let ch3 := Byte.to_N b2 in
            if is_continuation ch3
            then Char (N.shiftl ch 12 + N.shiftl ch2 6 + ch3
                       - (N.shiftl 0xE0 12 + N.shiftl 0x80 6 + 0x80))%N
                 :: utf8_scan t2
            else Bad 2 :: utf8_scan t1
          end
      end
    else if (ch <? 0xF5)%N then
      match t0 with
      | [] => [Bad 1]
      | b1 :: t1 =>
        let ch2 := Byte.to_N b1 in
        if negb (is_continuation ch2)
           || (if (ch2 <? 0x90)%N then (ch =? 0xF0)%N else (ch =? 0xF4)%N)
        then Bad 1 :: utf8_scan t0
        else
          match t1 with
          | [] => [Bad 2]
          | b2 :: t2 =>
            let ch3 := Byte.to_N b2 in
            if negb (is_continuation ch3) then Bad 2 :: utf8_scan t1
            else
              match t2 with
              | [] => [Bad 3]
              | b3 :: t3 =>
                let ch4 := Byte.to_N b3 in
                if is_continuation ch4
                then Char (N.shiftl ch 18 + N.shiftl ch2 12 + N.shiftl ch3 6 + ch4
                           - (N.shiftl 0xF0 18 + N.shiftl 0x80 12
                              + N.shiftl 0x80 6 + 0x80))%N
                     :: utf8_scan t3
                else Bad 3 :: utf8_scan t2
              end
          end
      end
    else Bad 1 :: utf8_scan t0
  end.

(** The [errors] argument of [bytes.decode]. *)
Inductive error_handler : Type := strict | ignore | replace.

(** U+FFFD, the replacement character. *)
Definition REPLACEMENT_CHARACTER : N := 0xFFFD%N.

Fixpoint handle_errors (errors : error_handler) (items : list item) : answer pystr :=
  match items with
  | [] => inr []
  | Char c :: rest =>
    match handle_errors errors rest with
    | inr s => inr (c :: s)
    | inl e => inl e
    end
  | Bad _ :: rest =>
    match errors with
    | strict => inl UnicodeDecodeError
    | ignore => handle_errors errors rest
    | replace =>
      match handle_errors errors rest with
      | inr s => inr (REPLACEMENT_CHARACTER :: s)
      | inl e => inl e
      end
    end
  end.

(** [bs.decode('utf-8', errors)]. *)
Definition decode_utf8 (errors : error_handler) (bs : list byte) : answer pystr :=
  handle_errors errors (utf8_scan bs).

(** The characters of the well-formed sequences of [bs], in order. *)
Fixpoint chars_of (items : list item) : pystr :=
  match items with
  | [] => []
  | Char c :: rest => c :: chars_of rest
  | Bad _ :: rest => chars_of rest
  end.

(** The same with one replacement character for each faulty run. *)
Fixpoint chars_or_replacement (items : list item) : pystr :=
  match items with
  | [] => []
  | Char c :: rest => c :: chars_or_replacement rest
  | Bad _ :: rest => REPLACEMENT_CHARACTER :: chars_or_replacement rest
  end.

Definition LF : N := 10%N.

(** [s.split("\n")]. *)
Fixpoint split_lf (s : pystr) : list pystr :=
  match s with
  | [] => [[]]
  | c :: rest =>
    if (c =? LF)%N then [] :: split_lf rest
    else
      match split_lf rest with
      | [] => [[c]]
      | l :: ls => (c :: l) :: ls
      end
  end.

(** ["\n".join(lines)]. *)
Fixpoint join_lf (lines : list pystr) : pystr :=
  match lines with
  | [] => []
  | [l] => l
  | l :: ls => l ++ LF :: join_lf ls
  end.

Definition is_newline (b : byte) : bool := (Byte.to_N b =? LF)%N.

(** The first line of a buffer, through its line feed, and what follows
    it; [None] when the buffer holds no line feed. *)
Fixpoint take_line (buf : list byte) : option (list byte * list byte) :=
  match buf with
  | [] => None
  | b :: rest =>
    if is_newline b then Some ([b], rest)
    else
      match take_line rest with
      | Some (l, rest') => Some (b :: l, rest')
      | None => None
      end
  end.

(** The lines of a complete byte stream, each with its line feed (the
    last one may lack it): what successive [readline] calls return once
    the stream is closed. *)
Fixpoint lines_of (bs : list byte) : list (list byte) :=
  match bs with
  | [] => []
  | b :: rest =>
    if is_newline b then [b] :: lines_of rest
    else
      match lines_of rest with
      | [] => [[b]]
      | l :: ls => (b :: l) :: ls
      end
  end.

End Py.

(** ** Processes under a clock

    The world of [safe_kill_processes] called on any batch of started
    processes: a table of operating-system processes by PID, and a clock in
    the time unit of [wait(timeout=30)]. *)

Module Timed.

(** What the operating system does when asked to kill a running process. *)
Inductive kill_effect : Type :=
| KillDenied (e : exn)                 (* the request itself fails *)
| KillIgnored                          (* accepted, and the process stays *)
| KillEnds (delay : nat) (status : Z). (* the process ends [delay] later *)

Record os_process : Type := OsProcess {
  returncode : option Z;        (* [Popen.returncode]: set once reaped *)
  exit_at : option (nat * Z);   (* when it ends, and with which status *)
  on_kill : kill_effect
}.

Inductive call : Type :=
| CallKill (pid : nat)
| CallWait (pid : nat) (timeout : nat).

Record World : Type := MkWorld {
  clock : nat;
  table : gmap nat os_process;
  calls : list call    (* the calls made on [Popen] objects, oldest first *)
}.

Definition set_returncode (rc : Z) (p : os_process) : os_process :=
  OsProcess (Some rc) (exit_at p) (on_kill p).

Definition set_exit_at (t : nat) (rc : Z) (p : os_process) : os_process :=
  OsProcess (returncode p) (Some (t, rc)) (on_kill p).

(** [Popen.poll()]: collect the status of a process that has ended. *)
Definition reap (now : nat) (p : os_process) : os_process :=
  match returncode p, exit_at p with
  | None, Some (t, rc) => if t <=? now then set_returncode rc p else p
  | _, _ => p
  end.

(** The end of a process killed at [now]: the earlier of its own end and
    [now + delay]. *)
Definition killed_at (now delay : nat) (status : Z) (p : os_process) : os_process :=
  match exit_at p with
  | Some (t, _) => if t <=? now + delay then p else set_exit_at (now + delay) status p
  | None => set_exit_at (now + delay) status p
  end.

(** [proc.kill()].  A process whose status is known is left alone; an
    unknown PID is a process that is gone, which [Popen] does not report. *)
Definition kill (proc : popen) (w : World) : answer unit * World :=
  let pid := p_pid proc in
  let w := MkWorld (clock w) (table w) (calls w ++ [CallKill pid]) in
  match table w !! pid with
  | None => (inr tt, w)
  | Some p =>
    let p := reap (clock w) p in
    match returncode p with
    | Some _ => (inr tt, MkWorld (clock w) (<[pid := p]> (table w)) (calls w))
    | None =>
      match on_kill p with
      | KillDenied e => (inl e, w)
      | KillIgnored => (inr tt, w)
      | KillEnds delay status =>
        (inr tt, MkWorld (clock w)
                         (<[pid := killed_at (clock w) delay status p]> (table w))
                         (calls w))
      end
    end
  end.

(** [proc.wait(timeout=timeout)]: returns as soon as the process has ended,
    raises [TimeoutExpired] after [timeout] time units otherwise. *)
Definition wait (proc : popen) (timeout : nat) (w : World) : answer Z * World :=
  let pid := p_pid proc in
  let w := MkWorld (clock w) (table w) (calls w ++ [CallWait pid timeout]) in
  match table w !! pid with
  | None => (inr 0%Z, w)
  | Some p =>
    match returncode p, exit_at p with
    | Some rc, _ => (inr rc, w)
    | None, Some (t, rc) =>
      if t <=? clock w + timeout
      then (inr rc, MkWorld (Nat.max (clock w) t)
                            (<[pid := set_returncode rc p]> (table w))
                            (calls w))
      else (inl TimeoutExpired, MkWorld (clock w + timeout) (table w) (calls w))
    | None, None =>
      (inl TimeoutExpired, MkWorld (clock w + timeout) (table w) (calls w))
    end
  end.

Definition current_returncode (proc : popen) (w : World) : option Z :=
  match table w !! p_pid proc with
  | Some p => returncode p
  | None => None
  end.

#[export] Instance timed_api : ProcessAPI World := {
  proc_returncode := current_returncode;
  proc_kill := kill;
  proc_wait := wait
}.

(** Has the process ended by now, as the operating system sees it? *)
Definition ended (proc : popen) (w : World) : bool :=
  match table w !! p_pid proc with
  | Some p =>
    match returncode p, exit_at p with
    | Some _, _ => true
    | None, Some (t, _) => t <=? clock w
    | None, None => false
    end
  | None => false
  end.

(** Two processes that take 20 and 45 time units to die once killed. *)
Definition slow_pair : World :=
  MkWorld 0
    (<[1 := OsProcess None None (KillEnds 20 1)]>
       (<[2 := OsProcess None None (KillEnds 45 1)]> ∅))
    [].

(** One process, which ended at time 90 with status 0; it is now 100. *)
Definition exited_explorer : World :=
  MkWorld 100 (<[7 := OsProcess None (Some (90, 0%Z)) KillIgnored]> ∅) [].

Definition slow_pair_handles : list popen :=
  [Popen ["AssetProcessor"%string] 1; Popen ["AssetBundlerBatch"%string] 2].

(** What a kill request is answered at time [now]: it is refused only for
    a process that is still running and denies it. *)
Definition refusal (now : nat) (tb : gmap nat os_process) (pid : nat) : answer unit :=
  match tb !! pid with
  | None => inr tt
  | Some p =>
    match returncode (reap now p) with
    | Some _ => inr tt
    | None =>
      match on_kill (reap now p) with
      | KillDenied e => inl e
      | _ => inr tt
      end
    end
  end.

(** Will the process still be there 30 time units from now, whatever kill
    requests it is sent: not reaped, not due to end by then, and not ended
    by a kill within that time? *)
Definition outlasts (pid : nat) (w : World) : bool :=
  match table w !! pid with
  | Some p =>
    match returncode p with
    | Some _ => false
    | None =>
      match exit_at p with
      | Some (t, _) => clock w + 30 <? t
      | None => true
      end
      && match on_kill p with
         | KillEnds delay _ => 30 <? delay
         | _ => true
         end
    end
  | None => false
  end.

(** A process that may not be killed and does not end, and one that takes
    45 time units to die. *)
Definition guarded_pair : World :=
  MkWorld 0
    (<[1 := OsProcess None None (KillDenied PermissionError)]>
       (<[2 := OsProcess None None (KillEnds 45 1)]> ∅))
    [].

(** A process that ignores the kill and never ends, and one that has
    ended. *)
Definition stuck_first : World :=
  MkWorld 0
    (<[1 := OsProcess None None KillIgnored]>
       (<[2 := OsProcess None (Some (0, 0%Z)) KillIgnored]> ∅))
    [].

End Timed.

(** ** One command and its child process

    The world of [CLICommand.run]: the child process with its two pipes,
    the reader thread running [enqueue_output], the queue between that
    thread and the caller, and the [CLICommand] object.  Three threads of
    control take turns: the child, the reader, and the caller of [run].
    The caller's code is the code below; the turns of the other two are
    dictated by a schedule, one [tick] for each point at which the caller
    looks at the process, at the stream or at the queue. *)

Module Runner.

(** What a child does before it exits: writes to its two streams. *)
Inductive action : Type :=
| WriteOut (data : list byte)
| WriteErr (data : list byte).

Record program : Type := Program {
  script : list action;
  exit_status : Z
}.

Inductive thread : Type := ChildThread | ReaderThread.

(** One point of interleaving: the turns the other threads get there, and
    the error of the system call the caller makes there, if it fails. *)
Record tick : Type := Tick {
  steps : list thread;
  fault : option exn
}.

(** The child as the operating system sees it. *)
Record Child : Type := MkChild {
  todo : list action;
  status : Z;
  exited : bool;
  stdout_pipe : list byte;   (* written by the child, not read yet *)
  stderr_pipe : list byte
}.

Inductive reader_state : Type := NotStarted | Reading | Closed.

(** The attributes of a [CLICommand] object. *)
Record CLICommand : Type := MkCLICommand {
  args : list string;
  cwd : option string;
  env : option (list (string * string));
  cmd_logger : logger_id;
  _stdout_lines : list pystr;
  _stderr_lines : list pystr
}.

(** [CLICommand.__init__]. *)
Definition CLICommand_init (args : list string) (cwd : option string)
    (lg : logger_id) (env : option (list (string * string))) : CLICommand :=
  MkCLICommand args cwd env lg [] [].

(** The properties of the class. *)
Definition stdout_lines (self : CLICommand) : list pystr := _stdout_lines self.
Definition stdout (self : CLICommand) : pystr := Py.join_lf (_stdout_lines self).
Definition stderr_lines (self : CLICommand) : list pystr := _stderr_lines self.
Definition stderr (self : CLICommand) : pystr := Py.join_lf (_stderr_lines self).

(** The world inside the [with Popen(...) as process] block. *)
Record Live : Type := MkLive {
  self : CLICommand;
  process : popen;
  child : Child;
  returncode : option Z;      (* [process.returncode] *)
  reader : reader_state;      (* the thread [t] *)
  queue : list (list byte);   (* [q], oldest first *)
  schedule : list tick;
  pipe_size : nat             (* the number of bytes a pipe holds *)
}.

Definition set_self (x : CLICommand) (w : Live) : Live :=
  MkLive x (process w) (child w) (returncode w) (reader w) (queue w) (schedule w) (pipe_size w).
Definition set_child (x : Child) (w : Live) : Live :=
  MkLive (self w) (process w) x (returncode w) (reader w) (queue w) (schedule w) (pipe_size w).
Definition set_returncode (x : option Z) (w : Live) : Live :=
  MkLive (self w) (process w) (child w) x (reader w) (queue w) (schedule w) (pipe_size w).
Definition set_reader (x : reader_state) (w : Live) : Live :=
  MkLive (self w) (process w) (child w) (returncode w) x (queue w) (schedule w) (pipe_size w).
Definition set_queue (x : list (list byte)) (w : Live) : Live :=
  MkLive (self w) (process w) (child w) (returncode w) (reader w) x (schedule w) (pipe_size w).
Definition set_schedule (x : list tick) (w : Live) : Live :=
  MkLive (self w) (process w) (child w) (returncode w) (reader w) (queue w) x
         (pipe_size w).

(** *** The other threads *)

(** Can the child write [d] to its standard error now?  Nobody reads that
    pipe while the child runs, so the bytes have to fit in with those the
    pipe holds already; [room] is the size of the pipe ([None]: the pipe is
    being read to its end, or has been closed, and no write waits). *)
Definition fits (room : option nat) (c : Child) (d : list byte) : bool :=
  match room with
  | Some size => length (stderr_pipe c) + length d <=? size
  | None => true
  end.

(** One turn of the child: its next write, or its exit once the script is
    done (which closes its ends of the pipes).  A write to standard error
    that does not fit waits: the turn changes nothing. *)
Definition child_step (room : option nat) (c : Child) : Child :=
  if exited c then c
  else
    match todo c with
    | WriteOut d :: rest =>
      MkChild rest (status c) false (stdout_pipe c ++ d) (stderr_pipe c)
    | WriteErr d :: rest =>
      if fits room c d
      then MkChild rest (status c) false (stdout_pipe c) (stderr_pipe c ++ d)
      else c
    | [] => MkChild [] (status c) true (stdout_pipe c) (stderr_pipe c)
    end.

(** [out.readline()] on a pipe holding [buf]: a line through its line feed;
    at end of file what is left, which is [b''] when nothing is; [None]
    when the call has to wait. *)
Definition readline (buf : list byte) (closed : bool) : option (list byte * list byte) :=
  match Py.take_line buf with
  | Some (line, rest) => Some (line, rest)
  | None => if closed then Some (buf, []) else None
  end.

(** One turn of [enqueue_output]: one round of
    [for line in iter(out.readline, b''): queue.put(line)], and
    [out.close()] when [readline] returns the sentinel. *)
Definition enqueue_output (w : Live) : Live :=
  match reader w with
  | Reading =>
    match readline (stdout_pipe (child w)) (exited (child w)) with
    | None => w
    | Some ([], _) => set_reader Closed w
    | Some (line, rest) =>
      set_queue (queue w ++ [line])
        (set_child (MkChild (todo (child w)) (status (child w)) (exited (child w))
                            rest (stderr_pipe (child w))) w)
    end
  | _ => w
  end.

Definition run_thread (t : thread) (w : Live) : Live :=
  match t with
  | ChildThread => set_child (child_step (Some (pipe_size w)) (child w)) w
  | ReaderThread => enqueue_output w
  end.

Definition run_threads (ts : list thread) (w : Live) : Live :=
  fold_left (fun w t => run_thread t w) ts w.

(** The child runs until it has exited, none of its writes waiting. *)
Definition child_finish (w : Live) : Live :=
  Nat.iter (S (length (todo (child w))))
    (fun w => set_child (child_step None (child w)) w) w.

(** The child runs as far as it gets: to its exit, or to a write that
    waits. *)
Definition child_runs (w : Live) : Live :=
  Nat.iter (S (length (todo (child w)))) (run_thread ChildThread) w.

(** Once the schedule is used up the other threads are not held back any
    longer: the child runs as far as it gets, then the reader to the end of
    what is there. *)
Definition settle (w : Live) : Live :=
  let w1 := child_runs w in
  Nat.iter (S (S (length (stdout_pipe (child w1))))) (run_thread ReaderThread) w1.

(** The caller reaches a point of interleaving. *)
Definition interleave (w : Live) : option exn * Live :=
  match schedule w with
  | [] => (None, settle w)
  | t :: rest => (fault t, run_threads (steps t) (set_schedule rest w))
  end.

(** *** The caller's primitives *)

(** [process.stdout.flush()]: nothing to do on a stream that is read, but
    [ValueError] once [enqueue_output] has closed it. *)
Definition stdout_flush (w : Live) : answer unit * Live :=
  let (_, w) := interleave w in
  match reader w with
  | Closed => (inl ValueError, w)
  | _ => (inr tt, w)
  end.

(** [process.poll()]. *)
Definition poll (w : Live) : answer (option Z) * Live :=
  match returncode w with
  | Some rc => (inr (Some rc), w)
  | None =>
    let (f, w) := interleave w in
    match f with
    | Some e => (inl e, w)
    | None =>
      if exited (child w)
      then (inr (Some (status (child w))), set_returncode (Some (status (child w))) w)
      else (inr None, w)
    end
  end.

(** [queue.get_nowait()]. *)
Definition get_nowait (w : Live) : answer (list byte) * Live :=
  let (_, w) := interleave w in
  match queue w with
  | [] => (inl Empty, w)
  | line :: rest => (inr line, set_queue rest w)
  end.

(** [queue.empty()]. *)
Definition queue_empty (w : Live) : answer bool * Live :=
  let (_, w) := interleave w in
  (inr match queue w with [] => true | _ => false end, w).

(** [process.stderr.read()]: everything up to end of file, which comes when
    the child has exited; while the caller reads, no write of the child
    waits. *)
Definition stderr_read (w : Live) : answer (list byte) * Live :=
  let (f, w) := interleave w in
  match f with
  | Some e => (inl e, w)
  | None =>
    let w := child_finish w in
    (inr (stderr_pipe (child w)),
     set_child (MkChild (todo (child w)) (status (child w)) (exited (child w))
                        (stdout_pipe (child w)) []) w)
  end.

(** [process.kill()]: nothing when the status is known; collects the status
    of a child that has exited; ends a running child, with status 1 (on
    Windows [kill] is [TerminateProcess(handle, 1)]). *)
Definition kill (proc : popen) (w : Live) : answer unit * Live :=
  match returncode w with
  | Some _ => (inr tt, w)
  | None =>
    let (f, w) := interleave w in
    match f with
    | Some e => (inl e, w)
    | None =>
      if exited (child w)
      then (inr tt, set_returncode (Some (status (child w))) w)
      else (inr tt, set_child (MkChild [] 1%Z true (stdout_pipe (child w))
                                       (stderr_pipe (child w))) w)
    end
  end.

(** [process.wait(timeout=timeout)]: the tick decides how far the child gets
    while the caller waits. *)
Definition wait (proc : popen) (timeout : nat) (w : Live) : answer Z * Live :=
  match returncode w with
  | Some rc => (inr rc, w)
  | None =>
    let (f, w) := interleave w in
    match f with
    | Some e => (inl e, w)
    | None =>
      if exited (child w)
      then (inr (status (child w)), set_returncode (Some (status (child w))) w)
      else (inl TimeoutExpired, w)
    end
  end.

#[export] Instance live_api : ProcessAPI Live := {
  proc_returncode := fun _ w => returncode w;
  proc_kill := kill;
  proc_wait := wait
}.

(** *** The methods of [CLICommand] *)

(** [line.decode('utf-8', 'ignore')]. *)
Definition decode (line : list byte) : M Live pystr :=
  prim (fun w => (Py.decode_utf8 Py.ignore line, w)).

(** The three statements both loops run on a line they got:
    [log_line = line.decode('utf-8', 'ignore')],
    [self._stdout_lines.append(log_line)], [self.logger.info(log_line)]. *)
Definition capture (line : list byte) : M Live unit :=
  log_line <- decode line ;;
  modify (fun w =>
    set_self (MkCLICommand (args (self w)) (cwd (self w)) (env (self w))
                (cmd_logger (self w)) (_stdout_lines (self w) ++ [log_line])
                (_stderr_lines (self w))) w) ;;
  lg <- gets (fun w => cmd_logger (self w)) ;;
  emit lg INFO (MsgText log_line).

(** [try: line = queue.get_nowait() / except Empty: pass / else: ...]: the
    line, or [None] when the queue was empty. *)
Definition try_get_nowait : M Live (option (list byte)) :=
  try_except
    (line <- prim get_nowait ;; ret (Some line))
    (fun e => if is_Empty e then ret None else raise e).

Fixpoint _poll_process (fuel : nat) : M Live unit :=
  match fuel with
  | O => stuck
  | S fuel' =>
    rc <- prim poll ;;
    match rc with
    | Some _ => ret tt
    | None =>
      got <- try_get_nowait ;;
      match got with
      | None => _poll_process fuel'
      | Some [] => ret tt                                 (* if not line: break *)
      | Some line => capture line ;; _poll_process fuel'
      end
    end
  end.

(** The loop of [_cleanup_process]: [while not queue.empty(): ...]. *)
Fixpoint flush_queue (fuel : nat) : M Live unit :=
  match fuel with
  | O => stuck
  | S fuel' =>
    empty <- prim queue_empty ;;
    if empty : bool then ret tt
    else
      got <- try_get_nowait ;;
      match got with
      | None => flush_queue fuel'
      | Some [] => ret tt                                 (* if not line: break *)
      | Some line => capture line ;; flush_queue fuel'
      end
  end.

Definition _cleanup_process (fuel : nat) : M Live (list byte) :=
  flush_queue fuel ;;
  stderr <- prim stderr_read ;;
  proc <- gets process ;;
  lg <- gets (fun w => cmd_logger (self w)) ;;
  safe_kill_processes [proc] (Some lg) ;;
  ret stderr.

(** [bool(ret)] for [ret = process.returncode]. *)
Definition truthy (ret_ : option Z) : bool :=
  match ret_ with
  | Some z => negb (z =? 0)%Z
  | None => false
  end.

(** The body of the [with] statement of [run]. *)
Definition run_body (fuel : nat) : M Live (option Z) :=
  self_ <- gets self ;;
  proc <- gets process ;;
  arg0 <- subscript0 (args self_) ;;
  emit (cmd_logger self_) INFO (MsgRunning arg0 (p_pid proc) (args self_)) ;;
  modify (set_reader Reading) ;;                          (* t.start() *)
  prim stdout_flush ;;
  _poll_process fuel ;;
  stderr <- _cleanup_process fuel ;;
  ret_ <- gets returncode ;;
  match stderr with
  | [] => ret ret_
  | _ =>
    let logger_func := if truthy ret_ then ERROR else WARNING in
    err_txt <- decode stderr ;;
    emit (cmd_logger self_) logger_func (MsgText err_txt) ;;
    modify (fun w =>
      set_self (MkCLICommand (args (self w)) (cwd (self w)) (env (self w))
                  (cmd_logger (self w)) (_stdout_lines (self w))
                  (Py.split_lf err_txt)) w) ;;
    ret ret_
  end.

(** *** The machine the script runs on *)

Record Host : Type := MkHost {
  (* what [Popen(args, cwd=cwd, env=env)] finds: a program, or the error
     it raises *)
  executables : list string -> option string -> option (list (string * string))
                -> answer program;
  next_pid : nat;
  pending : list tick;          (* the schedule of the next command *)
  this : CLICommand;            (* the object whose [run] is called *)
  last : option Live;           (* the process of the last [with] block, as it was left *)
  later : list (list tick);     (* the schedules of the commands after the next *)
  pipe_capacity : nat           (* the number of bytes a pipe holds *)
}.

(** [Popen(args, cwd=cwd, env=env, stdout=PIPE, stderr=PIPE)].  An empty
    argument list names no executable and is refused like a missing one. *)
Definition spawn (h : Host) : answer Live :=
  match args (this h) with
  | [] => inl OSError
  | _ =>
    match executables h (args (this h)) (cwd (this h)) (env (this h)) with
    | inl e => inl e
    | inr prog =>
      inr (MkLive (this h) (Popen (args (this h)) (next_pid h))
                  (MkChild (script prog) (exit_status prog) false [] [])
                  None NotStarted [] (pending h) (pipe_capacity h))
    end
  end.

(** [Popen.__exit__]: closes the pipes and waits for the child, without a
    bound. *)
Definition popen_exit (w : Live) : Live :=
  match returncode w with
  | Some _ => w
  | None =>
    let w := child_finish w in
    set_returncode (Some (status (child w))) w
  end.

(** [with Popen(...) as process: body]. *)
Definition with_Popen {A} (body : M Live A) : M Host A :=
  fun s =>
    let h := world s in
    match spawn h with
    | inl e => (Exc e, s)
    | inr w0 =>
      let (r, s') := body (Store w0 (log s)) in
      let w := popen_exit (world s') in
      (r, Store (MkHost (executables h) (S (next_pid h)) (hd [] (later h)) (self w)
                        (Some w) (tl (later h)) (pipe_capacity h))
                (log s'))
    end.

(** [CLICommand.run].  The first statement, [ret = 1], is dead: [ret] is
    assigned again before the only [return], and the handler re-raises. *)
Definition run (fuel : nat) : M Host (option Z) :=
  lg <- gets (fun h => cmd_logger (this h)) ;;
  try_except
    (with_Popen (run_body fuel))
    (fun err => emit lg ERROR (MsgException err) ;; raise err).

(** [process_command]. *)
Definition process_command (fuel : nat) (args : list string) (cwd : option string)
    (env : option (list (string * string))) : M Host (option Z) :=
  match args with
  | [] => emit RootLogger ERROR MsgNoArguments ;; ret (Some 1%Z)
  | _ =>
    modify (fun h =>
      MkHost (executables h) (next_pid h) (pending h)
             (CLICommand_init args cwd RootLogger env) (last h) (later h)
             (pipe_capacity h)) ;;
    run fuel
  end.

End Runner.

(** ** The export script: the commands it issues

    The script proper (the [__main__] block) parses its options, checks
    the project and the engine, runs a fixed sequence of commands through
    [process_command], and lays the result out on disk.  Embedded here are
    the paths it derives, the argument lists it builds, and the two
    stretches of calls to [process_command]; the option parser, the
    validation and the file operations are not. *)

Module Exporter.
Import Runner.

(** A [pathlib.Path]: one given on the command line, or [parent / name]. *)
Inductive Path : Type :=
| Given (s : string)
| Sub (parent : Path) (name : string).

(** What the script puts into an argument list. *)
Inductive arg : Type :=
| Lit (s : string)                     (* a string literal, or [args.config] *)
| StrOf (p : Path)                     (* [str(p)] *)
| PathObj (p : Path)                   (* a [Path] object *)
| Interp (prefix : string) (p : Path). (* [f'{prefix}{p}'] *)

(** The options, as [parser.parse_args()] returns them. *)
Record Namespace : Type := MkNamespace {
  project_path : Path;
  engine_path : Path;
  output_path : Path;
  config : string;                     (* 'release' or 'profile' *)
  log_level : string;
  archive_output_format : string;
  build_non_mono_tools : bool;
  non_mono_build_path : option Path;
  mono_build_path : option Path;
  archive_output : bool;
  quiet : bool
}.

(** The local variables [non_mono_build_path] and [mono_build_path]. *)
Definition non_mono_dir (ns : Namespace) : Path :=
  match non_mono_build_path ns with
  | None => Sub (Sub (engine_path ns) "build") "non_mono"
  | Some p => p
  end.

Definition mono_dir (ns : Namespace) : Path :=
  match mono_build_path ns with
  | None => Sub (Sub (engine_path ns) "build") "mono"
  | Some p => p
  end.

Definition asset_bundler_batch_path (ns : Namespace) : Path :=
  Sub (Sub (Sub (non_mono_dir ns) "bin") "profile") "AssetBundlerBatch".

Definition engine_asset_list_path (ns : Namespace) : Path :=
  Sub (Sub (Sub (project_path ns) "AssetBundling") "AssetLists") "engine_pc.assetlist".

Definition game_asset_list_path (ns : Namespace) : Path :=
  Sub (Sub (Sub (project_path ns) "AssetBundling") "AssetLists") "game_pc.assetlist".

Definition seed_folder_path (ns : Namespace) : Path :=
  Sub (Sub (project_path ns) "AssetBundling") "SeedLists".

Definition engine_bundle_path (ns : Namespace) : Path :=
  Sub (Sub (Sub (project_path ns) "AssetBundling") "Bundles") "engine_pc.pak".

Definition game_bundle_path (ns : Namespace) : Path :=
  Sub (Sub (Sub (project_path ns) "AssetBundling") "Bundles") "game_pc.pak".

(** The argument lists, in the order of the script. *)
Definition configure_non_mono (ns : Namespace) : list arg :=
  [Lit "cmake"; Lit "-S"; Lit "."; Lit "-B"; StrOf (non_mono_dir ns);
   Lit "-DLY_MONOLITHIC_GAME=0"; Interp "-DLY_PROJECTS=" (project_path ns)].

Definition build_tools (ns : Namespace) : list arg :=
  [Lit "cmake"; Lit "--build"; StrOf (non_mono_dir ns); Lit "--target";
   Lit "AssetBundler"; Lit "AssetBundlerBatch"; Lit "AssetProcessor";
   Lit "AssetProcessorBatch"; Lit "--config"; Lit "profile"].

Definition build_assets (ns : Namespace) : list arg :=
  [Lit "cmake"; Lit "--build"; StrOf (non_mono_dir ns); Lit "--target";
   Lit "MultiplayerSample.Assets"; Lit "--config"; Lit "profile"].

Definition configure_mono (ns : Namespace) : list arg :=
  [Lit "cmake"; Lit "-S"; Lit "."; Lit "-B"; StrOf (mono_dir ns);
   Lit "-DLY_MONOLITHIC_GAME=1";
   Lit "-DALLOW_SETTINGS_REGISTRY_DEVELOPMENT_OVERRIDES=0";
   Interp "-DLY_PROJECTS=" (project_path ns)].

Definition build_launchers (ns : Namespace) : list arg :=
  [Lit "cmake"; Lit "--build"; StrOf (mono_dir ns); Lit "--target";
   Lit "MultiplayerSample.GameLauncher"; Lit "MultiplayerSample.ServerLauncher";
   Lit "MultiplayerSample.UnifiedLauncher"; Lit "--config"; Lit (config ns)].

Definition engine_asset_list_command (ns : Namespace) : list arg :=
  [PathObj (asset_bundler_batch_path ns); Lit "assetLists";
   Lit "--addDefaultSeedListFiles"; Lit "--assetListFile";
   PathObj (engine_asset_list_path ns); Lit "--project-path";
   PathObj (project_path ns); Lit "--allowOverwrites"].

Definition game_asset_list_command (ns : Namespace) : list arg :=
  [PathObj (asset_bundler_batch_path ns); Lit "assetLists"; Lit "--assetListFile";
   PathObj (game_asset_list_path ns);
   Lit "--seedListFile"; PathObj (Sub (seed_folder_path ns) "BasePopcornFxSeedList.seed");
   Lit "--seedListFile"; PathObj (Sub (seed_folder_path ns) "GameSeedList.seed")]
  ++ (if String.eqb (config ns) "profile"
      then [Lit "--seedListFile";
            PathObj (Sub (seed_folder_path ns) "ProfileOnlySeedList.seed")]
      else [])
  ++ [Lit "--seedListFile"; PathObj (Sub (seed_folder_path ns) "VFXSeedList.seed");
      Lit "--project-path"; PathObj (project_path ns); Lit "--allowOverwrites"].

Definition engine_bundle_command (ns : Namespace) : list arg :=
  [PathObj (asset_bundler_batch_path ns); Lit "bundles"; Lit "--assetListFile";
   PathObj (engine_asset_list_path ns); Lit "--outputBundlePath";
   PathObj (engine_bundle_path ns); Lit "--project-path";
   PathObj (project_path ns); Lit "--allowOverwrites"].

Definition game_bundle_command (ns : Namespace) : list arg :=
  [PathObj (asset_bundler_batch_path ns); Lit "bundles"; Lit "--assetListFile";
   PathObj (game_asset_list_path ns); Lit "--outputBundlePath";
   PathObj (game_bundle_path ns); Lit "--project-path";
   PathObj (project_path ns); Lit "--allowOverwrites"].

Definition explorer_command (ns : Namespace) : list arg :=
  [Lit "explorer"; PathObj (output_path ns)].

Section Driver.
(** [os.fspath(p)], which is [str(p)], on this platform. *)
Variable fspath : Path -> string.

(** The string [Popen] makes of an argument. *)
Definition render (a : arg) : string :=
  match a with
  | Lit s => s
  | StrOf p => fspath p
  | PathObj p => fspath p
  | Interp prefix p => (prefix ++ fspath p)%string
  end.

(** [process_command(cmd, cwd=cwd)]: the script never passes [env]. *)
Definition call (fuel : nat) (cmd : list arg) (cwd : option Path) : M Host (option Z) :=
  process_command fuel (map render cmd) (option_map fspath cwd) None.

(** From "Build o3de-multiplayersample and the engine (non-monolithic)" to
    the second bundle: nine calls, or six; every returned status is
    dropped.  ([time.sleep(1)] before the last call touches nothing
    here.) *)
Definition build_and_bundle (fuel : nat) (ns : Namespace) : M Host unit :=
  (if build_non_mono_tools ns
   then
     _ <- call fuel (configure_non_mono ns) (Some (engine_path ns)) ;;
     _ <- call fuel (build_tools ns) (Some (engine_path ns)) ;;
     _ <- call fuel (build_assets ns) (Some (engine_path ns)) ;;
     ret tt
   else ret tt) ;;
  _ <- call fuel (configure_mono ns) (Some (engine_path ns)) ;;
  _ <- call fuel (build_launchers ns) (Some (engine_path ns)) ;;
  _ <- call fuel (engine_asset_list_command ns) (Some (engine_path ns)) ;;
  _ <- call fuel (game_asset_list_command ns) (Some (engine_path ns)) ;;
  _ <- call fuel (engine_bundle_command ns) (Some (engine_path ns)) ;;
  _ <- call fuel (game_bundle_command ns) (Some (engine_path ns)) ;;
  ret tt.

(** The end of the script: [if not args.quiet: process_command(['explorer',
    args.output_path])]. *)
Definition show_output (fuel : nat) (ns : Namespace) : M Host unit :=
  if quiet ns then ret tt
  else _ <- call fuel (explorer_command ns) None ;; ret tt.

End Driver.

(** The argument lists of [build_and_bundle], in order. *)
Definition commands (ns : Namespace) : list (list arg) :=
  (if build_non_mono_tools ns
   then [configure_non_mono ns; build_tools ns; build_assets ns]
   else [])
  ++ [configure_mono ns; build_launchers ns; engine_asset_list_command ns;
      game_asset_list_command ns; engine_bundle_command ns; game_bundle_command ns].

End Exporter.

(** * The vocabulary of the properties *)

Section Outcomes.
Context {W : Type}.

(** [m] always comes back with a value. *)
Definition returns {A} (m : M W A) : Prop :=
  forall s, exists a s', m s = (Ret a, s').

(** [m] contains no loop that can run out of its bound. *)
Definition finishes {A} (m : M W A) : Prop :=
  forall s s', m s <> (Stuck, s').

End Outcomes.

Section Vocabulary.
Import Runner.

(** [proc.args[0]] of a process started from a non-empty argument list. *)
Definition arg0 (proc : popen) : string := hd EmptyString (p_args proc).

Definition kill_call (proc : popen) : Timed.call := Timed.CallKill (p_pid proc).

Definition wait_call (proc : popen) : Timed.call := Timed.CallWait (p_pid proc) 30.

Definition terminating_record (lg : logger_id) (proc : popen) : log_record :=
  LogRecord lg INFO (MsgTerminating (arg0 proc) (p_pid proc)).

Definition terminated_record (lg : logger_id) (proc : popen) (rc : option Z) : log_record :=
  LogRecord lg INFO (MsgTerminated (arg0 proc) (p_pid proc) rc).

(** The text [bytes.decode('utf-8', 'ignore')] gives. *)
Definition text (bs : list byte) : pystr := Py.chars_of (Py.utf8_scan bs).

Fixpoint written_out (acts : list action) : list byte :=
  match acts with
  | [] => []
  | WriteOut d :: rest => d ++ written_out rest
  | WriteErr _ :: rest => written_out rest
  end.

Fixpoint written_err (acts : list action) : list byte :=
  match acts with
  | [] => []
  | WriteOut _ :: rest => written_err rest
  | WriteErr d :: rest => d ++ written_err rest
  end.

(** The lines the caller has not taken yet: those in the queue, then those
    of the bytes still in the pipe or still to be written. *)
Definition pending_lines (w : Live) : list (list byte) :=
  queue w ++ Py.lines_of (stdout_pipe (child w) ++ written_out (todo (child w))).

Definition pending_err (w : Live) : list byte :=
  stderr_pipe (child w) ++ written_err (todo (child w)).

(** Worlds that can arise: a child that has exited writes no more, the
    reader never puts the sentinel [b''] on the queue, the standard-error
    pipe holds no more than its size, and the reader closes the stream
    only at its end, which comes when the child has exited. *)
Definition ok (w : Live) : Prop :=
  (exited (child w) = true -> todo (child w) = [])
  /\ Forall (fun line => line <> []) (queue w)
  /\ length (stderr_pipe (child w)) <= pipe_size w
  /\ (reader w = Closed -> exited (child w) = true).

(** All that the child still has for standard error fits into the pipe. *)
Definition roomy (w : Live) : Prop := length (pending_err w) <= pipe_size w.

(** What no turn of the child or of the reader changes. *)
Record same (w w' : Live) : Prop := {
  same_self : self w' = self w;
  same_process : process w' = process w;
  same_returncode : returncode w' = returncode w;
  same_status : status (child w') = status (child w);
  same_pending_lines : pending_lines w' = pending_lines w;
  same_pending_err : pending_err w' = pending_err w;
  same_exited : exited (child w) = true -> exited (child w') = true;
  same_queue : exists more, queue w' = queue w ++ more;
  same_pipe_size : pipe_size w' = pipe_size w;
  same_started : reader w <> NotStarted -> reader w' <> NotStarted
}.

Definition line_record (lg : logger_id) (line : list byte) : log_record :=
  LogRecord lg INFO (MsgText (text line)).

(** From [s] to [s'] the caller has taken the lines [got] off the queue, in
    this order, and captured and logged each of them. *)
Record took (got : list (list byte)) (s s' : store Live) : Prop := {
  took_ok : ok (world s');
  took_pending : pending_lines (world s) = got ++ pending_lines (world s');
  took_args : args (self (world s')) = args (self (world s));
  took_cwd : cwd (self (world s')) = cwd (self (world s));
  took_env : env (self (world s')) = env (self (world s));
  took_logger : cmd_logger (self (world s')) = cmd_logger (self (world s));
  took_stdout :
    _stdout_lines (self (world s')) = _stdout_lines (self (world s)) ++ map text got;
  took_stderr : _stderr_lines (self (world s')) = _stderr_lines (self (world s));
  took_log : log s' = log s ++ map (line_record (cmd_logger (self (world s)))) got;
  took_process : process (world s') = process (world s);
  took_status : status (child (world s')) = status (child (world s));
  took_err : pending_err (world s') = pending_err (world s);
  took_exited :
    exited (child (world s)) = true -> exited (child (world s')) = true;
  took_schedule : exists used, schedule (world s) = used ++ schedule (world s');
  took_pipe_size : pipe_size (world s') = pipe_size (world s)
}.

(** The world once [process.stderr.read()] has emptied the pipe. *)
Definition drained (w : Live) : Live :=
  set_child (MkChild (todo (child w)) (status (child w)) (exited (child w))
                     (stdout_pipe (child w)) []) w.

Definition running_record (self_ : CLICommand) (proc : popen) : log_record :=
  LogRecord (cmd_logger self_) INFO
    (MsgRunning (hd EmptyString (args self_)) (p_pid proc) (args self_)).

(** The record of the standard-error block, if the child wrote one. *)
Definition stderr_records (lg : logger_id) (st : Z) (err : list byte) : list log_record :=
  match err with
  | [] => []
  | _ => [LogRecord lg (if (st =? 0)%Z then WARNING else ERROR) (MsgText (text err))]
  end.

(** The object once [run] has looked at the standard-error block. *)
Definition with_stderr (err : list byte) (self_ : CLICommand) : CLICommand :=
  match err with
  | [] => self_
  | _ => MkCLICommand (args self_) (cwd self_) (env self_) (cmd_logger self_)
           (_stdout_lines self_) (Py.split_lf (text err))
  end.

(** The world in which the [with] block starts. *)
Definition first_world (h : Host) (prog : program) : Live :=
  MkLive (this h) (Popen (args (this h)) (next_pid h))
         (MkChild (script prog) (exit_status prog) false [] [])
         None NotStarted [] (pending h) (pipe_capacity h).

Definition found (h : Host) (prog : program) : Prop :=
  args (this h) <> []
  /\ executables h (args (this h)) (cwd (this h)) (env (this h)) = inr prog.

(** The argument lists of the processes a log shows as started, oldest
    first. *)
Fixpoint started (records : list log_record) : list (list string) :=
  match records with
  | [] => []
  | r :: rest =>
    match rec_msg r with
    | MsgRunning _ _ a => a :: started rest
    | _ => started rest
    end
  end.

(** A caller that runs commands one after the other and drops what
    [process_command] returns. *)
Definition issue (fuel : nat) (cwd : option string) (cmds : list (list string))
    : M Host unit :=
  for_each cmds (fun cmd => _ <- process_command fuel cmd cwd None ;; ret tt).

(** The object [process_command] makes for a command. *)
Definition fresh (h : Host) (args : list string) (cwd : option string)
    (env : option (list (string * string))) : Host :=
  MkHost (executables h) (next_pid h) (pending h)
         (CLICommand_init args cwd RootLogger env) (last h) (later h) (pipe_capacity h).

(** The reader thread has closed the stream by the time the caller
    flushes it. *)
Definition flush_late (h : Host) (prog : program) : Prop :=
  reader (snd (interleave (set_reader Reading (first_world h prog)))) = Closed.

(** A schedule under which the flush comes in time whatever the command:
    the reader thread gets no turn before it. *)
Definition steady (sched : list tick) : Prop :=
  exists t rest, sched = t :: rest /\ ~ In ReaderThread (steps t).

(** The schedules of the commands to come, the next one first. *)
Definition schedules (h : Host) : list (list tick) := pending h :: later h.

(** A command that is found and a schedule for it: what the child writes
    to standard error fits into a pipe of [size] bytes, no system call
    fails, the flush comes in time, and the run fits in the bound on the
    loops. *)
Definition runnable (fuel size : nat)
    (exe : list string -> option string -> option (list (string * string)) -> answer program)
    (cwd : option string) (cmd : list string) (sched : list tick) : Prop :=
  cmd <> []
  /\ exists prog, exe cmd cwd None = inr prog
                  /\ length (written_err (script prog)) <= size
                  /\ Forall (fun t => fault t = None) sched
                  /\ steady sched
                  /\ length sched + length (written_out (script prog)) < fuel.

(** Every command of a sequence is runnable under the schedule it will be
    run with. *)
Definition all_runnable (fuel : nat) (h : Host) (cwd : option string)
    (cmds : list (list string)) : Prop :=
  Forall2 (runnable fuel (pipe_capacity h) (executables h) cwd) cmds
          (firstn (length cmds) (schedules h)).

(** The reader thread has come to the end of the stream and closed it. *)
Definition reader_done (w : Live) : Prop :=
  reader w = Closed /\ stdout_pipe (child w) = [] /\ exited (child w) = true.

End Vocabulary.

(** ** Scenarios *)

Section Scenarios.
Import Runner.

Definition hello_line : list byte := list_byte_of_string "hello" ++ [x0a].

(** [echo hello]: one line on standard output, nothing on standard error,
    exit status 0. *)
Definition echo_hello : program := Program [WriteOut hello_line] 0.

(** A child that writes two lines, one write each. *)
Definition two_lines : program :=
  Program [WriteOut (list_byte_of_string "a" ++ [x0a]);
           WriteOut (list_byte_of_string "b" ++ [x0a])] 0.

(** A tool that complains on standard error and exits with status 3. *)
Definition failing_tool : program :=
  Program [WriteErr (list_byte_of_string "boom" ++ [x0a])] 3.

(** A tool that fills standard error with 5000 bytes of warnings and exits
    with status 0. *)
Definition noisy_tool : program := Program [WriteErr (repeat x2e 5000)] 0.

(** A machine on which [echo], [two-lines], [failing-tool] and
    [noisy-tool] are the only executables; a pipe holds 4096 bytes (what
    Windows gives an anonymous pipe by default). *)
Definition path (args : list string) (cwd : option string)
    (env : option (list (string * string))) : answer program :=
  match args with
  | "echo"%string :: _ => inr echo_hello
  | "two-lines"%string :: _ => inr two_lines
  | "failing-tool"%string :: _ => inr failing_tool
  | "noisy-tool"%string :: _ => inr noisy_tool
  | _ => inl FileNotFoundError
  end.

Definition host (args : list string) (sched : list tick) : Host :=
  MkHost path 4242 sched (CLICommand_init args None RootLogger None) None [] 4096.

Definition echo_host (sched : list tick) : Host :=
  host ["echo"%string; "hello"%string] sched.

(** The caller gets to [process.stdout.flush()] before the other threads
    have moved; from then on they are not held back. *)
Definition prompt : list tick := [Tick [] None].

(** The child of [two-lines] writes its first line and the reader passes it
    on; the caller takes it; the child writes its second line and exits
    before the reader gets its next turn; the caller sees the exit, then an
    empty queue. *)
Definition late_reader : list tick :=
  [Tick [] None;                            (* process.stdout.flush() *)
   Tick [ChildThread; ReaderThread] None;   (* process.poll() *)
   Tick [] None;                            (* queue.get_nowait() *)
   Tick [ChildThread; ChildThread] None;    (* process.poll() *)
   Tick [] None;                            (* queue.empty() *)
   Tick [] None].                           (* process.stderr.read() *)

(** The first [process.poll()] fails. *)
Definition failing_poll : list tick := [Tick [] None; Tick [] (Some OSError)].

(** Paths written with a slash between the parts. *)
Fixpoint show_path (p : Exporter.Path) : string :=
  match p with
  | Exporter.Given s => s
  | Exporter.Sub parent name => (show_path parent ++ "/" ++ name)%string
  end.

(** An export of a project in profile configuration, tools not rebuilt. *)
Definition sample_options : Exporter.Namespace :=
  Exporter.MkNamespace (Exporter.Given "C:/mps") (Exporter.Given "C:/o3de")
    (Exporter.Given "C:/out") "profile" "ERROR" "none" false None None false true.

(** A build that prints one line and fails with status 1. *)
Definition failing_build : program :=
  Program [WriteOut (list_byte_of_string "error" ++ [x0a])] 1.

(** A machine on which every command is found and fails. *)
Definition all_fail (args : list string) (cwd : option string)
    (env : option (list (string * string))) : answer program :=
  inr failing_build.

(** A machine with [cmake] and nothing else. *)
Definition only_cmake (args : list string) (cwd : option string)
    (env : option (list (string * string))) : answer program :=
  match args with
  | "cmake"%string :: _ => inr failing_build
  | _ => inl FileNotFoundError
  end.

(** The machine after a first command, [two-lines], has been run. *)
Definition after_two_lines : store Host :=
  snd (run 8 (Store (MkHost path 4242 prompt
                       (CLICommand_init ["two-lines"%string] None RootLogger None)
                       None [prompt] 4096) [])).

Definition machine (exe : list string -> option string -> option (list (string * string))
                          -> answer program) : Host :=
  MkHost exe 1 prompt (CLICommand_init [] None RootLogger None) None
         (repeat prompt 8) 4096.

End Scenarios.

(** * Properties *)

(** ** Reasoning about monadic code *)

Section MonadFacts.
Context {W : Type}.

Local Abbreviation returns := (returns (W := W)) (only parsing).
Local Abbreviation finishes := (finishes (W := W)) (only parsing).

Lemma bind_inv {A B} (m : M W A) (k : A -> M W B) s r s' :
  bind m k s = (r, s') ->
  (exists a s1, m s = (Ret a, s1) /\ k a s1 = (r, s'))
  \/ (exists e, m s = (Exc e, s') /\ r = Exc e)
  \/ (m s = (Stuck, s') /\ r = Stuck).
Proof.
  unfold bind. destruct (m s) as [[a|e|] s1] eqn:E; intros Hk.
  - left. eauto.
  - right. left. inversion Hk; subst. eauto.
  - right. right. inversion Hk; subst. eauto.
Qed.

Lemma bind_ret {A B} (m : M W A) (k : A -> M W B) s a s1 :
  m s = (Ret a, s1) -> bind m k s = k a s1.
Proof. intros E. unfold bind. now rewrite E. Qed.

Lemma bind_exc {A B} (m : M W A) (k : A -> M W B) s e s1 :
  m s = (Exc e, s1) -> bind m k s = (Exc e, s1).
Proof. intros E. unfold bind. now rewrite E. Qed.

Lemma finishes_ret {A} (a : A) : finishes (ret a).
Proof. intros s s' E. discriminate. Qed.

Lemma finishes_raise {A} e : finishes (@raise W A e).
Proof. intros s s' E. discriminate. Qed.

Lemma finishes_emit lg lv msg : finishes (@emit W lg lv msg).
Proof. intros s s' E. discriminate. Qed.

Lemma finishes_gets {A} (f : W -> A) : finishes (gets f).
Proof. intros s s' E. discriminate. Qed.

Lemma finishes_modify (f : W -> W) : finishes (modify f).
Proof. intros s s' E. discriminate. Qed.

Lemma finishes_prim {A} (f : W -> answer A * W) : finishes (prim f).
Proof.
  intros s s' E. unfold prim in E.
  destruct (f (world s)) as [[e|a] w']; discriminate.
Qed.

Lemma finishes_subscript0 {A} (xs : list A) : finishes (@subscript0 W A xs).
Proof. destruct xs; intros s s' E; discriminate. Qed.

Lemma finishes_bind {A B} (m : M W A) (k : A -> M W B) :
  finishes m -> (forall a, finishes (k a)) -> finishes (bind m k).
Proof.
  intros Hm Hk s s' E.
  destruct (bind_inv _ _ _ _ _ E) as [(a & s1 & _ & E2) | [(e & _ & E2) | (E1 & _)]].
  - exact (Hk a _ _ E2).
  - discriminate.
  - exact (Hm _ _ E1).
Qed.

Lemma finishes_try_except {A} (body : M W A) handler :
  finishes body -> (forall e, finishes (handler e)) -> finishes (try_except body handler).
Proof.
  intros Hb Hh s s' E. unfold try_except in E.
  destruct (body s) as [[a|e|] s1] eqn:Eb.
  - discriminate.
  - exact (Hh e _ _ E).
  - inversion E; subst. exact (Hb _ _ Eb).
Qed.

Lemma finishes_for_each {A} (xs : list A) (body : A -> M W unit) :
  (forall x, finishes (body x)) -> finishes (for_each xs body).
Proof.
  intros Hb. induction xs as [|x xs IH]; simpl.
  - apply finishes_ret.
  - apply finishes_bind; auto.
Qed.

Lemma returns_emit lg lv msg : returns (@emit W lg lv msg).
Proof. intros s. unfold emit. eauto. Qed.

Lemma returns_bind {A B} (m : M W A) (k : A -> M W B) :
  returns m -> (forall a, returns (k a)) -> returns (bind m k).
Proof.
  intros Hm Hk s. destruct (Hm s) as (a & s1 & E).
  rewrite (bind_ret _ _ _ _ _ E). apply Hk.
Qed.

(** A [try] whose handler always returns, always returns. *)
Lemma returns_try_except {A} (body : M W A) handler :
  finishes body -> (forall e, returns (handler e)) -> returns (try_except body handler).
Proof.
  intros Hb Hh s. unfold try_except.
  destruct (body s) as [[a|e|] s1] eqn:Eb.
  - eauto.
  - apply Hh.
  - exfalso. exact (Hb _ _ Eb).
Qed.

Lemma returns_for_each {A} (xs : list A) (body : A -> M W unit) :
  (forall x, returns (body x)) -> returns (for_each xs body).
Proof.
  intros Hb. induction xs as [|x xs IH]; simpl.
  - intros s. unfold ret. eauto.
  - apply returns_bind; auto.
Qed.

Context `{ProcessAPI W}.

Lemma finishes_on_terminate lg proc : finishes (on_terminate lg proc).
Proof.
  apply finishes_try_except.
  - apply finishes_bind; [apply finishes_subscript0|]. intros a.
    apply finishes_bind; [apply finishes_gets|]. intros rc. apply finishes_emit.
  - intros e. apply finishes_emit.
Qed.

(** [safe_kill_processes] returns, whatever the processes do. *)
Lemma safe_kill_processes_returns processes lg :
  returns (safe_kill_processes processes lg).
Proof.
  unfold safe_kill_processes. apply returns_bind.
  - apply returns_for_each. intros proc. apply returns_try_except.
    + apply finishes_bind; [apply finishes_subscript0|]. intros a.
      apply finishes_bind; [apply finishes_emit|]. intros _. apply finishes_prim.
    + intros e. apply returns_emit.
  - intros _. apply returns_try_except.
    + apply finishes_for_each. intros proc.
      apply finishes_bind; [apply finishes_prim|]. intros _. apply finishes_on_terminate.
    + intros e. apply returns_emit.
Qed.

(** On one process, as [_cleanup_process] calls it: a failing kill and a
    failing wait are each logged as an error, and the primitive returns. *)
Lemma safe_kill_processes_logs_failures proc lg (s : store W) :
  p_args proc <> [] ->
  let lg' := match lg with Some l => l | None => logger end in
  exists s',
    safe_kill_processes [proc] lg s = (Ret tt, s')
    /\ (forall e w1,
          proc_kill proc (world s) = (inl e, w1) ->
          In (LogRecord lg' ERROR (MsgKillFailed e)) (log s'))
    /\ (forall r e w1 w2,
          proc_kill proc (world s) = (r, w1) ->
          proc_wait proc 30 w1 = (inl e, w2) ->
          In (LogRecord lg' ERROR (MsgWaitFailed e)) (log s')).
Proof.
  intros Hargs lg'. destruct proc as [[|a pargs] pid]; [simpl in Hargs; congruence|].
  unfold safe_kill_processes. fold lg'.
  unfold for_each, on_terminate, try_except, bind, subscript0, ret, emit, gets, prim; simpl.
  destruct (proc_kill (Popen (a :: pargs) pid) (world s)) as [[e|[]] w1] eqn:Ek; simpl;
    destruct (proc_wait (Popen (a :: pargs) pid) 30 w1) as [[e'|rc] w2] eqn:Ew; simpl;
    eexists; (split; [reflexivity|]); simpl; split;
    intros; repeat match goal with
                   | H : (_, _) = (_, _) |- _ => inversion H; subst; clear H
                   end;
    try congruence;
    rewrite ?in_app_iff; simpl; auto.
  - right. left. congruence.
  - right. left. congruence.
Qed.

End MonadFacts.

(** ** The termination primitive under a clock *)

Section TimedFacts.
Import Timed.

Lemma kill_frame proc w :
  exists r tb, kill proc w = (r, MkWorld (clock w) tb (calls w ++ [kill_call proc])).
Proof.
  unfold kill, kill_call; simpl.
  destruct (table w !! p_pid proc) as [p|]; [|eauto].
  destruct (returncode (reap (clock w) p)); [eauto|].
  destruct (on_kill (reap (clock w) p)); eauto.
Qed.

Lemma wait_frame proc timeout w :
  exists r c tb,
    wait proc timeout w = (r, MkWorld c tb (calls w ++ [CallWait (p_pid proc) timeout]))
    /\ clock w <= c <= clock w + timeout.
Proof.
  unfold wait; simpl.
  destruct (table w !! p_pid proc) as [p|]; [|do 3 eexists; split; [reflexivity|lia]].
  destruct (returncode p); [do 3 eexists; split; [reflexivity|lia]|].
  destruct (exit_at p) as [[t rc]|]; [|do 3 eexists; split; [reflexivity|lia]].
  destruct (t <=? clock w + timeout) eqn:E.
  - apply Nat.leb_le in E. do 3 eexists; split; [reflexivity|]. simpl. lia.
  - do 3 eexists; split; [reflexivity|]. simpl. lia.
Qed.

Lemma reap_on_kill now p : on_kill (reap now p) = on_kill p.
Proof.
  unfold reap. destruct (returncode p); [reflexivity|].
  destruct (exit_at p) as [[t rc]|]; [|reflexivity].
  destruct (t <=? now); reflexivity.
Qed.

Lemma killed_at_on_kill now delay status p :
  on_kill (killed_at now delay status p) = on_kill p.
Proof.
  unfold killed_at. destruct (exit_at p) as [[t rc]|]; [|reflexivity].
  destruct (t <=? now + delay); reflexivity.
Qed.

Lemma reap_reaped now p rc : returncode p = Some rc -> reap now p = p.
Proof. unfold reap. now intros ->. Qed.

(** Whether a kill request is refused does not depend on the requests made
    before it. *)
Lemma kill_answer proc w : fst (kill proc w) = refusal (clock w) (table w) (p_pid proc).
Proof.
  unfold kill, refusal; simpl.
  destruct (table w !! p_pid proc) as [p|]; [|reflexivity].
  destruct (returncode (reap (clock w) p)); [reflexivity|].
  destruct (on_kill (reap (clock w) p)); reflexivity.
Qed.

Lemma kill_answer_stable proc q w :
  fst (kill proc (snd (kill q w))) = fst (kill proc w).
Proof.
  rewrite !kill_answer.
  destruct w as [now tb cs]. unfold kill. simpl.
  destruct (tb !! p_pid q) as [pq|] eqn:Eq; [|reflexivity].
  destruct (returncode (reap now pq)) as [rc|] eqn:Erc.
  - (* the status of [q] is collected *)
    simpl. unfold refusal.
    destruct (decide (p_pid proc = p_pid q)) as [Heq|Hne].
    + rewrite Heq, lookup_insert_eq, Eq.
      rewrite (reap_reaped now (reap now pq) rc Erc), Erc. reflexivity.
    + rewrite lookup_insert_ne by congruence. reflexivity.
  - destruct (on_kill (reap now pq)) as [e| |delay status] eqn:Eok; try reflexivity.
    (* [q] is ended *)
    simpl. unfold refusal.
    destruct (decide (p_pid proc = p_pid q)) as [Heq|Hne].
    + rewrite Heq, lookup_insert_eq, Eq, Erc, Eok.
      set (p' := killed_at now delay status (reap now pq)).
      assert (Hok' : on_kill (reap now p') = KillEnds delay status).
      { unfold p'. now rewrite reap_on_kill, killed_at_on_kill. }
      destruct (returncode (reap now p')); [reflexivity|]. now rewrite Hok'.
    + rewrite lookup_insert_ne by congruence. reflexivity.
Qed.

(** The first loop: one kill request for each process, and a record of it;
    a request that is refused is logged as an error. *)
Lemma kill_loop_spec lg processes :
  Forall (fun proc => p_args proc <> []) processes ->
  forall s, exists s' new,
    for_each processes (fun proc =>
      try_except
        (arg0 <- subscript0 (p_args proc) ;;
         emit lg INFO (MsgTerminating arg0 (p_pid proc)) ;;
         prim (proc_kill proc))
        (fun e => emit lg ERROR (MsgKillFailed e))) s = (Ret tt, s')
    /\ clock (world s') = clock (world s)
    /\ calls (world s') = calls (world s) ++ map kill_call processes
    /\ log s' = log s ++ new
    /\ (forall proc, In proc processes -> In (terminating_record lg proc) new)
    /\ (forall proc e, In proc processes -> fst (kill proc (world s)) = inl e ->
          In (LogRecord lg ERROR (MsgKillFailed e)) new).
Proof.
  induction 1 as [|proc processes Hargs _ IH]; intros s.
  - exists s, []. simpl. unfold ret. rewrite !app_nil_r. repeat split; auto.
  - destruct proc as [pargs pid]. simpl in Hargs.
    destruct pargs as [|a pargs]; [congruence|].
    cbn [for_each].
    destruct (kill_frame (Popen (a :: pargs) pid) (world s)) as (r & tb & Ek).
    set (s1 := Store (MkWorld (clock (world s)) tb
                        (calls (world s) ++ [kill_call (Popen (a :: pargs) pid)]))
                     (log s ++ [terminating_record lg (Popen (a :: pargs) pid)]
                        ++ match r with
                           | inl e => [LogRecord lg ERROR (MsgKillFailed e)]
                           | inr _ => []
                           end)).
    destruct (IH s1) as (s' & new & E & Hc & Hk & Hl & Hin & Hfail).
    exists s', (terminating_record lg (Popen (a :: pargs) pid)
                :: match r with
                   | inl e => [LogRecord lg ERROR (MsgKillFailed e)]
                   | inr _ => []
                   end ++ new).
    split; [|split; [|split; [|split; [|split]]]].
    + unfold bind at 1. unfold try_except, bind, subscript0, ret, emit, prim; simpl.
      unfold proc_kill; simpl. rewrite Ek.
      destruct r as [e|[]]; simpl.
      * rewrite <- E. unfold s1. rewrite <- app_assoc. reflexivity.
      * rewrite <- E. unfold s1. simpl. reflexivity.
    + rewrite Hc. reflexivity.
    + rewrite Hk. simpl. rewrite <- app_assoc. reflexivity.
    + rewrite Hl. unfold s1. simpl. rewrite <- !app_assoc. reflexivity.
    + intros q [<-|Hq].
      * left. reflexivity.
      * right. apply in_or_app. right. auto.
    + intros q e [<-|Hq] He.
      * rewrite Ek in He. simpl in He. subst r. right. left. reflexivity.
      * right. apply in_or_app. right. apply (Hfail q e Hq).
        unfold s1. simpl.
        rewrite <- (kill_answer_stable q (Popen (a :: pargs) pid) (world s)) in He.
        rewrite Ek in He. exact He.
Qed.

(** The second loop: the processes are waited for one after the other, up
    to 30 time units each, until one of the waits raises. *)
Lemma wait_loop_spec lg processes :
  Forall (fun proc => p_args proc <> []) processes ->
  forall s, exists r s' confirmed new,
    for_each processes (fun proc =>
      _ <- prim (proc_wait proc 30) ;;
      on_terminate lg proc) s = (r, s')
    /\ clock (world s') <= clock (world s) + 30 * length processes
    /\ log s' = log s ++ new
    /\ (forall proc, In proc confirmed -> exists rc, In (terminated_record lg proc rc) new)
    /\ ((r = Ret tt /\ confirmed = processes
         /\ calls (world s') = calls (world s) ++ map wait_call processes)
        \/ (exists e proc rest,
              r = Exc e /\ processes = confirmed ++ proc :: rest
              /\ calls (world s') = calls (world s) ++ map wait_call (confirmed ++ [proc]))).
Proof.
  induction 1 as [|proc processes Hargs _ IH]; intros s.
  - exists (Ret tt), s, [], []. simpl. unfold ret. rewrite !app_nil_r.
    repeat split; auto; try lia.
  - destruct proc as [pargs pid]. simpl in Hargs.
    destruct pargs as [|a pargs]; [congruence|].
    cbn [for_each].
    destruct (wait_frame (Popen (a :: pargs) pid) 30 (world s)) as (r0 & c & tb & Ew & Hc).
    destruct r0 as [e|rc].
    + (* the wait raises: the loop is left *)
      exists (Exc e), (Store (MkWorld c tb (calls (world s) ++ [wait_call (Popen (a :: pargs) pid)]))
                             (log s)), [], [].
      split; [|split; [|split; [|split]]].
      * unfold bind, prim. unfold proc_wait; simpl. rewrite Ew. reflexivity.
      * simpl. lia.
      * simpl. now rewrite app_nil_r.
      * intros ? [].
      * right. exists e, (Popen (a :: pargs) pid), processes. simpl. auto.
    + (* the wait returns: [on_terminate] logs it *)
      set (w1 := MkWorld c tb (calls (world s) ++ [wait_call (Popen (a :: pargs) pid)])).
      set (rec := terminated_record lg (Popen (a :: pargs) pid)
                    (current_returncode (Popen (a :: pargs) pid) w1)).
      destruct (IH (Store w1 (log s ++ [rec])))
        as (r & s' & confirmed & new & E & Hclock & Hl & Hconf & Hcalls).
      exists r, s', (Popen (a :: pargs) pid :: confirmed), (rec :: new).
      split; [|split; [|split; [|split]]].
      * unfold bind at 1. unfold bind at 1. unfold prim at 1.
        unfold proc_wait; simpl. rewrite Ew.
        unfold on_terminate, try_except, bind, subscript0, ret, gets, emit; simpl.
        exact E.
      * simpl in Hclock. simpl. lia.
      * rewrite Hl. simpl. rewrite <- app_assoc. reflexivity.
      * intros q [<-|Hq].
        -- eexists. left. reflexivity.
        -- destruct (Hconf q Hq) as (rc' & Hin). exists rc'. right. exact Hin.
      * destruct Hcalls as [(-> & -> & Hcalls) | (e & q & rest & -> & -> & Hcalls)].
        -- left. repeat split. rewrite Hcalls. simpl. rewrite <- app_assoc. reflexivity.
        -- right. exists e, q, rest. repeat split.
           rewrite Hcalls. simpl. rewrite <- app_assoc. reflexivity.
Qed.

(** C9, as stated, fails: the bound of 30 time units holds for each wait,
    not for the batch.  Two processes that take 20 and 45 time units to die
    keep [safe_kill_processes] waiting for 45. *)
Lemma safe_kill_processes_exceeds_30_per_batch :
  exists s',
    safe_kill_processes slow_pair_handles None (Store slow_pair []) = (Ret tt, s')
    /\ clock slow_pair = 0
    /\ clock (world s') = 45
    /\ clock slow_pair + 30 < clock (world s').
Proof.
  eexists. split; [vm_compute; reflexivity|]. simpl. repeat split; lia.
Qed.

(** C9 (amended).  For every batch of started processes,
    [safe_kill_processes] asks for the kill of each one and logs the
    request, and logs as an error each kill that raises; it then waits for
    them in order, at most 30 time units for each process (so at most 30
    times the size of the batch in all), and logs the termination of each
    process whose wait returned; the first wait that raises ends the
    waiting and is logged as an error.  The primitive itself always
    returns. *)
Theorem safe_kill_processes_bounded_per_process processes lg (s : store World) :
  Forall (fun proc => p_args proc <> []) processes ->
  let lg' := match lg with Some l => l | None => logger end in
  exists s' confirmed new,
    safe_kill_processes processes lg s = (Ret tt, s')
    /\ clock (world s') <= clock (world s) + 30 * length processes
    /\ log s' = log s ++ new
    /\ (forall proc, In proc processes -> In (terminating_record lg' proc) new)
    /\ (forall proc e, In proc processes -> fst (kill proc (world s)) = inl e ->
          In (LogRecord lg' ERROR (MsgKillFailed e)) new)
    /\ (forall proc, In proc confirmed ->
          exists rc, In (terminated_record lg' proc rc) new)
    /\ ((confirmed = processes
         /\ calls (world s')
            = calls (world s) ++ map kill_call processes ++ map wait_call processes)
        \/ (exists e proc rest,
              processes = confirmed ++ proc :: rest
              /\ calls (world s')
                 = calls (world s) ++ map kill_call processes
                     ++ map wait_call (confirmed ++ [proc])
              /\ In (LogRecord lg' ERROR (MsgWaitFailed e)) new)).
Proof.
  intros Hargs lg'.
  destruct (kill_loop_spec lg' processes Hargs s)
    as (s1 & new1 & E1 & Hc1 & Hk1 & Hl1 & Hin1 & Hfail1).
  destruct (wait_loop_spec lg' processes Hargs s1)
    as (r & s2 & confirmed & new2 & E2 & Hc2 & Hl2 & Hin2 & Hcalls).
  unfold safe_kill_processes. fold lg'.
  rewrite (bind_ret _ _ _ _ _ E1). unfold try_except. rewrite E2.
  destruct Hcalls as [(-> & -> & Hcalls) | (e & proc & rest & -> & Hps & Hcalls)].
  - exists s2, processes, (new1 ++ new2).
    split; [reflexivity|]. split; [lia|]. split; [rewrite Hl2, Hl1; now rewrite app_assoc|].
    split; [intros; apply in_or_app; left; auto|].
    split; [intros q e0 Hq He; apply in_or_app; left; exact (Hfail1 q e0 Hq He)|].
    split; [intros q Hq; destruct (Hin2 q Hq) as (rc & ?); exists rc; apply in_or_app; right; auto|].
    left. split; [reflexivity|]. rewrite Hcalls, Hk1. now rewrite app_assoc.
  - exists (Store (world s2) (log s2 ++ [LogRecord lg' ERROR (MsgWaitFailed e)])),
      confirmed, (new1 ++ new2 ++ [LogRecord lg' ERROR (MsgWaitFailed e)]).
    split; [reflexivity|]. split; [simpl; lia|].
    split; [simpl; rewrite Hl2, Hl1; now rewrite !app_assoc|].
    split; [intros; apply in_or_app; left; auto|].
    split; [intros q e0 Hq He; apply in_or_app; left; exact (Hfail1 q e0 Hq He)|].
    split; [intros q Hq; destruct (Hin2 q Hq) as (rc & ?); exists rc;
            apply in_or_app; right; apply in_or_app; left; auto|].
    right. exists e, proc, rest. split; [exact Hps|]. split.
    + simpl. rewrite Hcalls, Hk1. now rewrite app_assoc.
    + apply in_or_app; right. apply in_or_app; right. left. reflexivity.
Qed.

Lemma safe_kill_processes_bounded_per_process_witness :
  exists s',
    safe_kill_processes slow_pair_handles None (Store guarded_pair []) = (Ret tt, s')
    /\ clock (world s') <= 0 + 30 * 2
    /\ In (LogRecord logger ERROR (MsgKillFailed PermissionError)) (log s').
Proof.
  destruct (safe_kill_processes_bounded_per_process slow_pair_handles None
              (Store guarded_pair []))
    as (s' & confirmed & new & E & Hc & Hlog & _ & Hfail & _).
  - repeat constructor; discriminate.
  - exists s'. split; [exact E|]. split; [exact Hc|].
    rewrite Hlog. simpl.
    apply (Hfail (Popen ["AssetProcessor"%string] 1) PermissionError).
    + left. reflexivity.
    + reflexivity.
Defined.

(** *** Processes that have already ended *)

Lemma ended_insert q pid (p : os_process) c tb cs cs' :
  (p_pid q = pid -> returncode p <> None) ->
  ended q (MkWorld c tb cs) = true ->
  ended q (MkWorld c (<[pid := p]> tb) cs') = true.
Proof.
  unfold ended; simpl. intros Hp Hq.
  destruct (decide (pid = p_pid q)) as [->|Hne].
  - rewrite lookup_insert_eq. specialize (Hp eq_refl).
    destruct (returncode p); [reflexivity|congruence].
  - rewrite lookup_insert_ne by exact Hne. exact Hq.
Qed.

Lemma kill_ended proc w :
  ended proc w = true ->
  exists w',
    kill proc w = (inr tt, w')
    /\ clock w' = clock w
    /\ calls w' = calls w ++ [kill_call proc]
    /\ forall q, ended q w = true -> ended q w' = true.
Proof.
  intros Hend. unfold kill. unfold ended in Hend. simpl.
  destruct (table w !! p_pid proc) as [p|] eqn:El; [|discriminate].
  assert (Hreap : returncode (reap (clock w) p) <> None).
  { unfold reap. destruct (returncode p) eqn:Erc; [now rewrite Erc|].
    destruct (exit_at p) as [[t rc]|]; [|discriminate].
    rewrite Hend. discriminate. }
  destruct (returncode (reap (clock w) p)) eqn:Erc; [|congruence].
  eexists. split; [reflexivity|]. simpl. repeat split.
  intros q Hq. destruct w as [c tb cs]. simpl in *.
  apply ended_insert with (cs := cs); [|exact Hq]. intros _. now rewrite Erc.
Qed.

Lemma wait_ended proc timeout w :
  ended proc w = true ->
  exists rc w',
    wait proc timeout w = (inr rc, w')
    /\ clock w' = clock w
    /\ forall q, ended q w = true -> ended q w' = true.
Proof.
  intros Hend. unfold wait. unfold ended in Hend. simpl.
  destruct (table w !! p_pid proc) as [p|] eqn:El; [|discriminate].
  destruct (returncode p) as [rc|] eqn:Erc.
  - do 2 eexists. split; [reflexivity|]. simpl. split; [reflexivity|].
    intros q Hq. exact Hq.
  - destruct (exit_at p) as [[t rc]|]; [|discriminate].
    apply Nat.leb_le in Hend.
    destruct (t <=? clock w + timeout) eqn:Et; [|apply Nat.leb_gt in Et; lia].
    do 2 eexists. split; [reflexivity|]. simpl. split; [lia|].
    intros q Hq. destruct w as [c tb cs]. simpl in *.
    replace (Nat.max c t) with c by lia.
    apply ended_insert with (cs := cs); [|exact Hq]. intros _. discriminate.
Qed.

Lemma kill_loop_ended lg processes :
  Forall (fun proc => p_args proc <> []) processes ->
  forall s,
    Forall (fun proc => ended proc (world s) = true) processes ->
    exists s',
      for_each processes (fun proc =>
        try_except
          (arg0 <- subscript0 (p_args proc) ;;
           emit lg INFO (MsgTerminating arg0 (p_pid proc)) ;;
           prim (proc_kill proc))
          (fun e => emit lg ERROR (MsgKillFailed e))) s = (Ret tt, s')
      /\ clock (world s') = clock (world s)
      /\ log s' = log s ++ map (terminating_record lg) processes
      /\ forall q, ended q (world s) = true -> ended q (world s') = true.
Proof.
  induction 1 as [|proc processes Hargs _ IH]; intros s Hall.
  - exists s. simpl. unfold ret. rewrite app_nil_r. auto.
  - inversion Hall as [|? ? Hend Hrest]; subst.
    destruct (kill_ended proc (world s) Hend) as (w1 & Ek & Hc1 & _ & He1).
    destruct proc as [[|a pargs] pid]; [simpl in Hargs; congruence|].
    destruct (IH (Store w1 (log s ++ [terminating_record lg (Popen (a :: pargs) pid)])))
      as (s' & E & Hc & Hl & He).
    { simpl. eapply Forall_impl; [exact Hrest|]. intros q Hq. apply He1. exact Hq. }
    exists s'. split; [|split; [|split]].
    + cbn [for_each]. unfold bind at 1.
      unfold try_except, bind, subscript0, ret, emit, prim; simpl.
      unfold proc_kill; simpl. rewrite Ek. exact E.
    + rewrite Hc. exact Hc1.
    + rewrite Hl. simpl. now rewrite <- app_assoc.
    + intros q Hq. apply He. simpl. apply He1. exact Hq.
Qed.

Lemma wait_loop_ended lg processes :
  Forall (fun proc => p_args proc <> []) processes ->
  forall s,
    Forall (fun proc => ended proc (world s) = true) processes ->
    exists s' new,
      for_each processes (fun proc =>
        _ <- prim (proc_wait proc 30) ;;
        on_terminate lg proc) s = (Ret tt, s')
      /\ clock (world s') = clock (world s)
      /\ log s' = log s ++ new
      /\ Forall (fun r => rec_level r = INFO) new.
Proof.
  induction 1 as [|proc processes Hargs _ IH]; intros s Hall.
  - exists s, []. simpl. unfold ret. rewrite app_nil_r. auto.
  - inversion Hall as [|? ? Hend Hrest]; subst.
    destruct (wait_ended proc 30 (world s) Hend) as (rc & w1 & Ew & Hc1 & He1).
    destruct proc as [[|a pargs] pid]; [simpl in Hargs; congruence|].
    set (rec := terminated_record lg (Popen (a :: pargs) pid)
                  (current_returncode (Popen (a :: pargs) pid) w1)).
    destruct (IH (Store w1 (log s ++ [rec]))) as (s' & new & E & Hc & Hl & Hinfo).
    { simpl. eapply Forall_impl; [exact Hrest|]. intros q Hq. apply He1. exact Hq. }
    exists s', (rec :: new). split; [|split; [|split]].
    + cbn [for_each]. unfold bind at 1. unfold bind at 1. unfold prim at 1.
      unfold proc_wait; simpl. rewrite Ew.
      unfold on_terminate, try_except, bind, subscript0, ret, gets, emit; simpl.
      exact E.
    + rewrite Hc. exact Hc1.
    + rewrite Hl. simpl. now rewrite <- app_assoc.
    + constructor; [reflexivity | exact Hinfo].
Qed.

(** X2.  On processes that have already ended, [safe_kill_processes] returns at
    once: no time passes, and nothing is logged above informational
    severity. *)
Theorem safe_kill_processes_on_ended processes lg (s : store World) :
  Forall (fun proc => p_args proc <> []) processes ->
  Forall (fun proc => ended proc (world s) = true) processes ->
  exists s' new,
    safe_kill_processes processes lg s = (Ret tt, s')
    /\ clock (world s') = clock (world s)
    /\ log s' = log s ++ new
    /\ Forall (fun r => rec_level r = INFO) new.
Proof.
  intros Hargs Hall.
  set (lg' := match lg with Some l => l | None => logger end).
  destruct (kill_loop_ended lg' processes Hargs s Hall) as (s1 & E1 & Hc1 & Hl1 & He1).
  destruct (wait_loop_ended lg' processes Hargs s1) as (s2 & new & E2 & Hc2 & Hl2 & Hinfo).
  { eapply Forall_impl; [exact Hall|]. intros q Hq. apply He1. exact Hq. }
  exists s2, (map (terminating_record lg') processes ++ new).
  split; [|split; [|split]].
  - unfold safe_kill_processes. fold lg'.
    rewrite (bind_ret _ _ _ _ _ E1). unfold try_except. now rewrite E2.
  - now rewrite Hc2.
  - rewrite Hl2, Hl1. now rewrite app_assoc.
  - apply Forall_app. split; [|exact Hinfo].
    clear. induction processes; simpl; constructor; auto.
Qed.

Lemma safe_kill_processes_on_ended_witness :
  exists s',
    safe_kill_processes [Popen ["explorer"%string] 7] None (Store exited_explorer [])
    = (Ret tt, s')
    /\ clock (world s') = 100.
Proof.
  destruct (safe_kill_processes_on_ended [Popen ["explorer"%string] 7] None
              (Store exited_explorer [])) as (s' & _ & E & Hc & _).
  - repeat constructor. discriminate.
  - repeat constructor.
  - exists s'. split; [exact E | exact Hc].
Defined.

(** *** A process that does not end *)

Lemma kill_outlasts proc pid w :
  outlasts pid w = true -> outlasts pid (snd (kill proc w)) = true.
Proof.
  unfold outlasts, kill; simpl. intros Ho.
  destruct (table w !! p_pid proc) as [p|] eqn:Ep; [|exact Ho].
  destruct (decide (p_pid proc = pid)) as [<-|Hne].
  - rewrite Ep in Ho.
    destruct p as [rc ex ok]; simpl in Ho. destruct rc; [discriminate|].
    apply andb_true_iff in Ho. destruct Ho as [Hex Hok].
    assert (Hreap : reap (clock w) (OsProcess None ex ok) = OsProcess None ex ok).
    { unfold reap; simpl. destruct ex as [[t rc]|]; [|reflexivity].
      apply Nat.ltb_lt in Hex.
      destruct (t <=? clock w) eqn:E; [apply Nat.leb_le in E; lia|reflexivity]. }
    rewrite Hreap; simpl.
    destruct ok as [e| |delay status]; simpl.
    + rewrite Ep; simpl. now rewrite Hex.
    + rewrite Ep; simpl. now rewrite Hex.
    + rewrite lookup_insert_eq. apply Nat.ltb_lt in Hok.
      unfold killed_at; simpl.
      destruct ex as [[t rc]|]; simpl.
      * apply Nat.ltb_lt in Hex.
        destruct (t <=? clock w + delay); simpl;
          apply andb_true_iff; split; apply Nat.ltb_lt; lia.
      * apply andb_true_iff; split; apply Nat.ltb_lt; lia.
  - destruct (returncode (reap (clock w) p)).
    + simpl. rewrite lookup_insert_ne by exact Hne. exact Ho.
    + destruct (on_kill (reap (clock w) p)); simpl; try exact Ho.
      rewrite lookup_insert_ne by exact Hne. exact Ho.
Qed.

Lemma wait_outlasts proc w :
  outlasts (p_pid proc) w = true ->
  wait proc 30 w
  = (inl TimeoutExpired, MkWorld (clock w + 30) (table w) (calls w ++ [wait_call proc])).
Proof.
  unfold outlasts, wait, wait_call; simpl. intros Ho.
  destruct (table w !! p_pid proc) as [p|]; [|discriminate].
  destruct (returncode p); [discriminate|].
  apply andb_true_iff in Ho. destruct Ho as [Hex _].
  destruct (exit_at p) as [[t rc]|]; [|reflexivity].
  apply Nat.ltb_lt in Hex.
  destruct (t <=? clock w + 30) eqn:E; [apply Nat.leb_le in E; lia|reflexivity].
Qed.

(** The first loop sends its requests, logs them, and confirms nothing; a
    process that outlasts them is still there afterwards. *)
Lemma kill_loop_outlasts lg pid processes :
  Forall (fun proc => p_args proc <> []) processes ->
  forall s, outlasts pid (world s) = true ->
  exists s' new,
    for_each processes (fun proc =>
      try_except
        (arg0 <- subscript0 (p_args proc) ;;
         emit lg INFO (MsgTerminating arg0 (p_pid proc)) ;;
         prim (proc_kill proc))
        (fun e => emit lg ERROR (MsgKillFailed e))) s = (Ret tt, s')
    /\ outlasts pid (world s') = true
    /\ clock (world s') = clock (world s)
    /\ calls (world s') = calls (world s) ++ map kill_call processes
    /\ log s' = log s ++ new
    /\ forall q rc, ~ In (terminated_record lg q rc) new.
Proof.
  induction 1 as [|proc processes Hargs _ IH]; intros s Ho.
  - exists s, []. simpl. unfold ret. rewrite !app_nil_r. repeat split; auto.
  - destruct proc as [pargs pid']. simpl in Hargs.
    destruct pargs as [|a pargs]; [congruence|].
    cbn [for_each].
    pose proof (kill_outlasts (Popen (a :: pargs) pid') pid (world s) Ho) as Ho1.
    destruct (kill_frame (Popen (a :: pargs) pid') (world s)) as (r & tb & Ek).
    rewrite Ek in Ho1. simpl in Ho1.
    set (s1 := Store (MkWorld (clock (world s)) tb
                        (calls (world s) ++ [kill_call (Popen (a :: pargs) pid')]))
                     (log s ++ [terminating_record lg (Popen (a :: pargs) pid')]
                        ++ match r with
                           | inl e => [LogRecord lg ERROR (MsgKillFailed e)]
                           | inr _ => []
                           end)).
    destruct (IH s1 Ho1) as (s' & new & E & Ho' & Hc & Hk & Hl & Hnone).
    exists s', (terminating_record lg (Popen (a :: pargs) pid')
                :: match r with
                   | inl e => [LogRecord lg ERROR (MsgKillFailed e)]
                   | inr _ => []
                   end ++ new).
    split; [|split; [|split; [|split; [|split]]]].
    + unfold bind at 1. unfold try_except, bind, subscript0, ret, emit, prim; simpl.
      unfold proc_kill; simpl. rewrite Ek.
      destruct r as [e|[]]; simpl.
      * rewrite <- E. unfold s1. rewrite <- app_assoc. reflexivity.
      * rewrite <- E. unfold s1. simpl. reflexivity.
    + exact Ho'.
    + rewrite Hc. reflexivity.
    + rewrite Hk. simpl. rewrite <- app_assoc. reflexivity.
    + rewrite Hl. unfold s1. simpl. rewrite <- !app_assoc. reflexivity.
    + intros q rc [Hq|Hq]; [discriminate|].
      apply in_app_or in Hq. destruct Hq as [Hq|Hq]; [|exact (Hnone q rc Hq)].
      destruct r; [destruct Hq as [Hq|[]]; discriminate | destruct Hq].
Qed.

(** X11.  The waits share one [try]: when the first process of a batch
    neither ends on its own nor is ended by the kill within 30 time units,
    [safe_kill_processes] still returns, exactly 30 time units later, with
    the time-out logged as an error; the other processes have been sent
    their kill, but none of them is waited for and no termination is
    logged, not even of those that had ended. *)
Theorem safe_kill_processes_gives_up_at_first_timeout proc rest lg (s : store World) :
  Forall (fun q => p_args q <> []) (proc :: rest) ->
  outlasts (p_pid proc) (world s) = true ->
  let lg' := match lg with Some l => l | None => logger end in
  exists s' new,
    safe_kill_processes (proc :: rest) lg s = (Ret tt, s')
    /\ clock (world s') = clock (world s) + 30
    /\ calls (world s')
       = calls (world s) ++ map kill_call (proc :: rest) ++ [wait_call proc]
    /\ log s' = log s ++ new ++ [LogRecord lg' ERROR (MsgWaitFailed TimeoutExpired)]
    /\ (forall q, In q (proc :: rest) -> In (terminating_record lg' q) new)
    /\ (forall q rc, ~ In (terminated_record lg' q rc) new).
Proof.
  intros Hargs Ho lg'.
  destruct (kill_loop_spec lg' (proc :: rest) Hargs s)
    as (s0 & new0 & E0 & _ & _ & Hl0 & Hin & _).
  destruct (kill_loop_outlasts lg' (p_pid proc) (proc :: rest) Hargs s Ho)
    as (s1 & new & E1 & Ho1 & Hc1 & Hk1 & Hl1 & Hnone).
  assert (s0 = s1) as -> by congruence.
  assert (new0 = new) as -> by (rewrite Hl1 in Hl0; now apply app_inv_head in Hl0).
  exists (Store (MkWorld (clock (world s1) + 30) (table (world s1))
                   (calls (world s1) ++ [wait_call proc]))
                (log s1 ++ [LogRecord lg' ERROR (MsgWaitFailed TimeoutExpired)])), new.
  split; [|split; [|split; [|split; [|split]]]].
  - unfold safe_kill_processes. fold lg'.
    rewrite (bind_ret _ _ _ _ _ E1). unfold try_except. cbn [for_each].
    unfold bind at 1. unfold bind at 1. unfold prim at 1.
    unfold proc_wait; simpl. rewrite (wait_outlasts proc (world s1) Ho1).
    reflexivity.
  - simpl. now rewrite Hc1.
  - simpl. rewrite Hk1. now rewrite <- app_assoc.
  - simpl. rewrite Hl1. now rewrite <- app_assoc.
  - exact Hin.
  - exact Hnone.
Qed.

Lemma safe_kill_processes_gives_up_at_first_timeout_witness :
  exists s',
    safe_kill_processes slow_pair_handles None (Store stuck_first []) = (Ret tt, s')
    /\ clock (world s') = 0 + 30
    /\ calls (world s') = [CallKill 1; CallKill 2; CallWait 1 30].
Proof.
  destruct (safe_kill_processes_gives_up_at_first_timeout
              (Popen ["AssetProcessor"%string] 1)
              [Popen ["AssetBundlerBatch"%string] 2] None (Store stuck_first []))
    as (s' & _ & E & Hc & Hk & _).
  - repeat constructor; discriminate.
  - reflexivity.
  - exists s'. split; [exact E|]. split; [exact Hc | exact Hk].
Defined.

End TimedFacts.

(** ** Decoding *)

Section DecodeFacts.

Lemma handle_errors_ignore items :
  Py.handle_errors Py.ignore items = inr (Py.chars_of items).
Proof.
  induction items as [|[c|n] items IH]; simpl.
  - reflexivity.
  - now rewrite IH.
  - exact IH.
Qed.

Lemma handle_errors_replace items :
  Py.handle_errors Py.replace items = inr (Py.chars_or_replacement items).
Proof.
  induction items as [|[c|n] items IH]; simpl; try rewrite IH; reflexivity.
Qed.

Lemma decode_utf8_ignore bs : Py.decode_utf8 Py.ignore bs = inr (text bs).
Proof. apply handle_errors_ignore. Qed.

(** The decoder on a few inputs, as CPython answers them. *)
Example decode_euro_sign :
  Py.decode_utf8 Py.strict [xe2; x82; xac] = inr [8364%N].
Proof. reflexivity. Qed.

Example decode_truncated_sequence :
  Py.decode_utf8 Py.strict [x41; xe2; x82] = inl UnicodeDecodeError
  /\ Py.decode_utf8 Py.ignore [x41; xe2; x82] = inr [65%N]
  /\ Py.decode_utf8 Py.replace [x41; xe2; x82] = inr [65%N; Py.REPLACEMENT_CHARACTER].
Proof. repeat split. Qed.

Example decode_surrogate :
  Py.decode_utf8 Py.replace [xed; xa0; x80]
  = inr [Py.REPLACEMENT_CHARACTER; Py.REPLACEMENT_CHARACTER; Py.REPLACEMENT_CHARACTER]
  /\ Py.decode_utf8 Py.ignore [xed; xa0; x80] = inr [].
Proof. repeat split. Qed.

Example split_lf_trailing : Py.split_lf (str "boom" ++ [Py.LF]) = [str "boom"; []].
Proof. reflexivity. Qed.

Lemma decode_returns line (s : store Runner.Live) :
  Runner.decode line s = (Ret (text line), s).
Proof.
  unfold Runner.decode, prim. rewrite decode_utf8_ignore. now destruct s.
Qed.

(** C6, as stated, fails: the byte FF, which no UTF-8 sequence contains, is
    dropped; decoding with replacement would give U+FFFD for it. *)
Lemma decode_substitutes_nothing :
  exists s : store Runner.Live,
    fst (Runner.decode [xff] s) = Ret []
    /\ Py.decode_utf8 Py.replace [xff] = inr [Py.REPLACEMENT_CHARACTER]
    /\ fst (Runner.decode [x68; xff; x69] s) = Ret (str "hi")
    /\ Py.decode_utf8 Py.replace [x68; xff; x69]
       = inr (str "h" ++ [Py.REPLACEMENT_CHARACTER] ++ str "i").
Proof.
  exists (Store (Runner.MkLive
    (Runner.CLICommand_init [] None RootLogger None) (Popen [] 0)
    (Runner.MkChild [] 0 false [] []) None Runner.NotStarted [] [] 4096) []).
  repeat split.
Qed.

(** C6 (amended).  Decoding a captured line, or the standard-error block,
    never raises: bytes that are not valid UTF-8 are dropped, and the text
    holds the characters of the well-formed sequences only, in order.  A
    standard-output line is captured and logged as that text. *)
Theorem decode_ignores_invalid_bytes (line : list byte) (s : store Runner.Live) :
  Runner.decode line s = (Ret (Py.chars_of (Py.utf8_scan line)), s)
  /\ exists s',
       Runner.capture line s = (Ret tt, s')
       /\ Runner._stdout_lines (Runner.self (world s'))
          = Runner._stdout_lines (Runner.self (world s)) ++ [Py.chars_of (Py.utf8_scan line)]
       /\ log s' = log s ++ [LogRecord (Runner.cmd_logger (Runner.self (world s))) INFO
                               (MsgText (Py.chars_of (Py.utf8_scan line)))].
Proof.
  split; [apply decode_returns|].
  unfold Runner.capture.
  rewrite (bind_ret _ _ _ _ _ (decode_returns line s)).
  eexists. split; [reflexivity|]. simpl. split; reflexivity.
Qed.

End DecodeFacts.

(** ** Lines of a byte stream *)

Section LineFacts.

Lemma take_line_Some buf line rest :
  Py.take_line buf = Some (line, rest) ->
  line <> [] /\ forall more, Py.lines_of (buf ++ more) = line :: Py.lines_of (rest ++ more).
Proof.
  revert line rest. induction buf as [|b buf IH]; intros line rest E; simpl in E.
  - discriminate.
  - destruct (Py.is_newline b) eqn:Eb.
    + inversion E; subst. split; [discriminate|]. intros more. simpl. now rewrite Eb.
    + destruct (Py.take_line buf) as [[l r]|] eqn:Et; [|discriminate].
      inversion E; subst. split; [discriminate|]. intros more. simpl. rewrite Eb.
      destruct (IH _ _ eq_refl) as [_ ->]. reflexivity.
Qed.

Lemma take_line_None buf :
  Py.take_line buf = None -> buf <> [] -> Py.lines_of buf = [buf].
Proof.
  induction buf as [|b buf IH]; intros E Hne; [congruence|].
  simpl in *. destruct (Py.is_newline b); [discriminate|].
  destruct (Py.take_line buf) as [[l r]|]; [discriminate|].
  destruct buf as [|b' buf]; [reflexivity|].
  rewrite IH; [reflexivity|reflexivity|discriminate].
Qed.

Lemma lines_of_nonempty bs : Forall (fun line => line <> []) (Py.lines_of bs).
Proof.
  induction bs as [|b bs IH]; simpl; [constructor|].
  destruct (Py.is_newline b).
  - constructor; [discriminate|exact IH].
  - destruct (Py.lines_of bs) as [|l ls]; constructor; try discriminate.
    + constructor.
    + now inversion IH.
Qed.

Lemma lines_of_length bs : length (Py.lines_of bs) <= length bs.
Proof.
  induction bs as [|b bs IH]; simpl; [lia|].
  destruct (Py.is_newline b); simpl; [lia|].
  destruct (Py.lines_of bs) as [|l ls]; simpl in *; lia.
Qed.

End LineFacts.

(** ** The runner: what the other threads leave unchanged *)

Section RunnerFacts.
Import Runner.

Lemma same_refl w : same w w.
Proof. split; auto. exists []. now rewrite app_nil_r. Qed.

Lemma same_trans w1 w2 w3 : same w1 w2 -> same w2 w3 -> same w1 w3.
Proof.
  intros [A1 A2 A3 A4 A5 A6 A7 [m1 A8] A9 A10] [B1 B2 B3 B4 B5 B6 B7 [m2 B8] B9 B10].
  split; try congruence; auto.
  exists (m1 ++ m2). rewrite B8, A8. now rewrite app_assoc.
Qed.

Lemma child_turn w : ok w -> ok (run_thread ChildThread w) /\ same w (run_thread ChildThread w).
Proof.
  intros (Hex & Hq & Hcap & Hcl). unfold run_thread, child_step, fits.
  destruct w as [sf pr [td st ex po pe] rc rd q sch sz]; simpl in *.
  destruct ex; [split; [repeat split; auto | apply same_refl]|].
  destruct td as [|[d|d] td].
  - split; [repeat split; simpl; auto|].
    split; unfold pending_lines, pending_err; simpl; auto.
    exists []; now rewrite app_nil_r.
  - split; [repeat split; simpl; auto; discriminate|].
    split; unfold pending_lines, pending_err; simpl;
      rewrite <- ?app_assoc; auto; try discriminate.
    exists []; now rewrite app_nil_r.
  - destruct (length pe + length d <=? sz) eqn:Efit.
    + apply Nat.leb_le in Efit.
      split; [repeat split; simpl; auto; try discriminate; rewrite length_app; lia|].
      split; unfold pending_lines, pending_err; simpl;
        rewrite <- ?app_assoc; auto; try discriminate.
      exists []; now rewrite app_nil_r.
    + split; [repeat split; auto | apply same_refl].
Qed.

Lemma reader_turn w : ok w -> ok (run_thread ReaderThread w) /\ same w (run_thread ReaderThread w).
Proof.
  intros (Hex & Hq & Hcap & Hcl). unfold run_thread, enqueue_output, readline.
  destruct w as [sf pr [td st ex po pe] rc rd q sch sz]; simpl in *.
  destruct rd; try (split; [repeat split; auto | apply same_refl]).
  destruct (Py.take_line po) as [[line rest]|] eqn:Et.
  - destruct (take_line_Some _ _ _ Et) as [Hne Hlines].
    destruct line as [|b line]; [congruence|].
    split; [split; [|split; [|split]]; simpl; auto; try discriminate|].
    + apply Forall_app. split; [exact Hq|]. constructor; [discriminate|constructor].
    + split; unfold pending_lines, pending_err; simpl; auto; [|eauto].
      rewrite Hlines, <- app_assoc. reflexivity.
  - destruct ex; [|split; [repeat split; auto | apply same_refl]].
    destruct po as [|b po].
    + split; [split; [|split; [|split]]; simpl; auto; try discriminate|].
      split; unfold pending_lines, pending_err; simpl; auto.
      exists []. now rewrite app_nil_r.
    + split; [split; [|split; [|split]]; simpl; auto; try discriminate|].
      * apply Forall_app. split; [exact Hq|]. constructor; [discriminate|constructor].
      * split; unfold pending_lines, pending_err; cbn [child stdout_pipe todo queue];
          auto; [|eauto].
        rewrite (Hex eq_refl). cbn [written_out]. rewrite !app_nil_r.
        rewrite (take_line_None _ Et); [|discriminate].
        reflexivity.
Qed.

Lemma thread_turn t w : ok w -> ok (run_thread t w) /\ same w (run_thread t w).
Proof. destruct t; [apply child_turn | apply reader_turn]. Qed.

Lemma thread_turn_schedule t w : schedule (run_thread t w) = schedule w.
Proof.
  destruct t; simpl; [reflexivity|]. unfold enqueue_output.
  destruct (reader w); try reflexivity.
  destruct (readline _ _) as [[[|b l] r]|]; reflexivity.
Qed.

Lemma threads_turn ts w : ok w -> ok (run_threads ts w) /\ same w (run_threads ts w).
Proof.
  revert w. induction ts as [|t ts IH]; intros w Hok; simpl.
  - split; [exact Hok | apply same_refl].
  - destruct (thread_turn t w Hok) as [Hok1 Hs1].
    destruct (IH _ Hok1) as [Hok2 Hs2].
    split; [exact Hok2 | exact (same_trans _ _ _ Hs1 Hs2)].
Qed.

Lemma threads_turn_schedule ts w : schedule (run_threads ts w) = schedule w.
Proof.
  revert w. induction ts as [|t ts IH]; intros w; simpl; [reflexivity|].
  rewrite IH. apply thread_turn_schedule.
Qed.

Lemma iter_turn t n w : ok w -> ok (Nat.iter n (run_thread t) w) /\ same w (Nat.iter n (run_thread t) w).
Proof.
  intros Hok. induction n as [|n [IH1 IH2]]; simpl.
  - split; [exact Hok | apply same_refl].
  - destruct (thread_turn t _ IH1) as [Hok1 Hs1].
    split; [exact Hok1 | exact (same_trans _ _ _ IH2 Hs1)].
Qed.

Lemma iter_turn_schedule t n w : schedule (Nat.iter n (run_thread t) w) = schedule w.
Proof.
  induction n as [|n IH]; simpl; [reflexivity|]. now rewrite thread_turn_schedule.
Qed.

Lemma child_stays_exited n w :
  exited (child w) = true ->
  exited (child (Nat.iter n (run_thread ChildThread) w)) = true.
Proof.
  intros Hex. induction n as [|n IH]; simpl; [exact Hex|].
  unfold child_step. now rewrite IH.
Qed.

Lemma same_roomy w w' : same w w' -> roomy w -> roomy w'.
Proof.
  intros Hs. unfold roomy.
  now rewrite (same_pending_err _ _ Hs), (same_pipe_size _ _ Hs).
Qed.

(** When all its standard error fits into the pipe, no write of the child
    waits. *)
Lemma child_writes w a td :
  roomy w -> exited (child w) = false -> todo (child w) = a :: td ->
  todo (child (run_thread ChildThread w)) = td.
Proof.
  unfold roomy, pending_err. intros Hr Ex Et. simpl. unfold child_step, fits.
  rewrite Ex, Et. destruct a as [d|d]; simpl; [reflexivity|].
  rewrite Et in Hr. simpl in Hr. rewrite !length_app in Hr.
  destruct (Nat.leb_spec (length (stderr_pipe (child w)) + length d) (pipe_size w));
    [reflexivity | lia].
Qed.

(** Given as many turns as it has writes left, and one more, a child whose
    standard error fits into the pipe has exited. *)
Lemma child_exits n w :
  roomy w -> ok w ->
  length (todo (child w)) < n ->
  exited (child (Nat.iter n (run_thread ChildThread) w)) = true.
Proof.
  revert w. induction n as [|n IH]; intros w Hr Hok Hn; [lia|].
  rewrite Nat.iter_succ_r.
  destruct (exited (child w)) eqn:Ex.
  - apply child_stays_exited. simpl. unfold child_step. now rewrite Ex.
  - destruct (todo (child w)) as [|a td] eqn:Et.
    + apply child_stays_exited. simpl. unfold child_step. now rewrite Ex, Et.
    + pose proof (child_writes w a td Hr Ex Et) as Ht.
      destruct (child_turn w Hok) as [Hok1 Hs1].
      apply IH; [exact (same_roomy _ _ Hs1 Hr) | exact Hok1 |].
      rewrite Ht. simpl in Hn. lia.
Qed.

(** *** The caller's points of interleaving *)

Lemma interleave_spec w f w' :
  ok w -> interleave w = (f, w') ->
  ok w' /\ same w w'
  /\ schedule w' = tl (schedule w)
  /\ (schedule w = [] -> f = None /\ (roomy w -> exited (child w') = true))
  /\ (forall e, f = Some e -> In (Some e) (map fault (schedule w))).
Proof.
  intros Hok E. unfold interleave in E.
  destruct (schedule w) as [|t rest] eqn:Es.
  - inversion E; subst; clear E. unfold settle.
    destruct (iter_turn ChildThread (S (length (todo (child w)))) w Hok) as [Hok1 Hs1].
    fold (child_runs w) in *.
    destruct (iter_turn ReaderThread (S (S (length (stdout_pipe (child (child_runs w))))))
                _ Hok1) as [Hok2 Hs2].
    split; [exact Hok2|]. split; [exact (same_trans _ _ _ Hs1 Hs2)|].
    split; [|split].
    + rewrite iter_turn_schedule. unfold child_runs. now rewrite iter_turn_schedule.
    + intros _. split; [reflexivity|]. intros Hr. apply (same_exited _ _ Hs2).
      unfold child_runs. apply child_exits; [exact Hr | exact Hok | lia].
    + intros e He. discriminate.
  - inversion E; subst; clear E.
    assert (Hok0 : ok (set_schedule rest w)) by exact Hok.
    destruct (threads_turn (steps t) _ Hok0) as [Hok1 Hs1].
    split; [exact Hok1|]. split; [|split; [|split]].
    + refine (same_trans _ _ _ _ Hs1). split; auto. exists []. simpl. now rewrite app_nil_r.
    + now rewrite threads_turn_schedule.
    + discriminate.
    + intros e He. left. exact He.
Qed.

Lemma took_refl s : ok (world s) -> took [] s s.
Proof.
  intros Hok. split; auto; simpl; try now rewrite app_nil_r.
  exists []. reflexivity.
Qed.

Lemma took_trans g1 g2 s1 s2 s3 :
  took g1 s1 s2 -> took g2 s2 s3 -> took (g1 ++ g2) s1 s3.
Proof.
  intros A B. destruct A, B. split; auto; try congruence.
  - rewrite took_pending0, took_pending1. now rewrite app_assoc.
  - rewrite took_stdout1, took_stdout0, map_app. now rewrite app_assoc.
  - rewrite took_log1, took_log0, took_logger0, map_app. now rewrite app_assoc.
  - destruct took_schedule0 as [u1 E1], took_schedule1 as [u2 E2].
    exists (u1 ++ u2). rewrite E1, E2. now rewrite app_assoc.
Qed.

Lemma took_same w w' l :
  ok w' -> same w w' -> (exists used, schedule w = used ++ schedule w') ->
  took [] (Store w l) (Store w' l).
Proof.
  intros Hok Hs Hsch. destruct Hs.
  split; simpl; auto; rewrite ?app_nil_r; congruence.
Qed.

Lemma tl_suffix {A} (l : list A) : exists used, l = used ++ tl l.
Proof. destruct l as [|a l]; [exists []|exists [a]]; reflexivity. Qed.

Lemma took_interleave w f w' l :
  ok w -> interleave w = (f, w') -> took [] (Store w l) (Store w' l).
Proof.
  intros Hok E. destruct (interleave_spec _ _ _ Hok E) as (Hok' & Hs & Hsch & _).
  apply took_same; auto. rewrite Hsch. apply tl_suffix.
Qed.

(** Taking the head of the queue. *)
Lemma took_line w line rest l :
  ok w -> queue w = line :: rest ->
  took [line] (Store w l)
    (Store (set_self (MkCLICommand (args (self w)) (cwd (self w)) (env (self w))
                        (cmd_logger (self w)) (_stdout_lines (self w) ++ [text line])
                        (_stderr_lines (self w)))
                     (set_queue rest w))
           (l ++ [line_record (cmd_logger (self w)) line])).
Proof.
  intros (Hex & Hq & Hcap & Hcl) Eq. split; simpl; auto.
  - split; [|split; [|split]]; simpl; auto. rewrite Eq in Hq. now inversion Hq.
  - unfold pending_lines. simpl. now rewrite Eq.
  - exists []. reflexivity.
Qed.

Lemma took_roomy got s s' : took got s s' -> roomy (world s) -> roomy (world s').
Proof.
  intros T. unfold roomy.
  now rewrite (took_err _ _ _ T), (took_pipe_size _ _ _ T).
Qed.

(** A child whose standard error does not fit into the pipe never exits
    while the caller polls. *)
Lemma took_exit_roomy got s s' :
  took got s s' -> exited (child (world s')) = true -> roomy (world s).
Proof.
  intros T Hex. destruct (took_ok _ _ _ T) as (Htodo & _ & Hcap & _).
  unfold roomy. rewrite <- (took_err _ _ _ T), <- (took_pipe_size _ _ _ T).
  unfold pending_err. rewrite (Htodo Hex). simpl. now rewrite app_nil_r.
Qed.

Lemma in_faults_suffix (e : exn) (used sch sch' : list tick) :
  sch = used ++ sch' -> In (Some e) (map fault sch') -> In (Some e) (map fault sch).
Proof. intros -> Hin. rewrite map_app. apply in_or_app. now right. Qed.

(** What [try_get_nowait] does: a turn of the others, then the head of the
    queue if there is one. *)
Lemma try_get_nowait_spec s :
  exists f w',
    interleave (world s) = (f, w')
    /\ try_get_nowait s
       = match queue w' with
         | [] => (Ret None, Store w' (log s))
         | line :: rest => (Ret (Some line), Store (set_queue rest w') (log s))
         end.
Proof.
  destruct (interleave (world s)) as [f w'] eqn:E. exists f, w'. split; [reflexivity|].
  unfold try_get_nowait, try_except, bind, prim, get_nowait. rewrite E.
  destruct (queue w'); reflexivity.
Qed.

Lemma capture_spec line s :
  capture line s
  = (Ret tt,
     Store (set_self (MkCLICommand (args (self (world s))) (cwd (self (world s)))
                        (env (self (world s))) (cmd_logger (self (world s)))
                        (_stdout_lines (self (world s)) ++ [text line])
                        (_stderr_lines (self (world s))))
                     (world s))
           (log s ++ [line_record (cmd_logger (self (world s))) line])).
Proof.
  unfold capture. rewrite (bind_ret _ _ _ _ _ (decode_returns line s)). reflexivity.
Qed.

(** *** The polling loop *)

Lemma poll_loop_spec fuel :
  forall s r s',
    ok (world s) -> returncode (world s) = None ->
    _poll_process fuel s = (r, s') ->
    exists got,
      took got s s'
      /\ match r with
         | Ret _ =>
           returncode (world s') = Some (status (child (world s')))
           /\ exited (child (world s')) = true
         | Exc e =>
           In (Some e) (map fault (schedule (world s)))
         | Stuck => roomy (world s) -> fuel <= length (schedule (world s))
         end.
Proof.
  induction fuel as [|fuel IH]; intros s r s' Hok Hrc E.
  - inversion E; subst. exists []. split; [now apply took_refl | simpl; lia].
  - cbn [_poll_process] in E.
    unfold bind at 1 in E. unfold prim at 1, poll in E. rewrite Hrc in E.
    destruct (interleave (world s)) as [f w1] eqn:Ei.
    destruct (interleave_spec _ _ _ Hok Ei) as (Hok1 & Hs1 & Hsch1 & Hend1 & Hf1).
    pose proof (took_interleave _ _ _ (log s) Hok Ei) as T1.
    assert (Es : Store (world s) (log s) = s) by now destruct s.
    rewrite Es in T1.
    destruct f as [e|].
    + (* the poll itself fails *)
      inversion E; subst. exists []. split; [exact T1 | now apply Hf1].
    + destruct (exited (child w1)) eqn:Ex.
      * (* the child has exited *)
        inversion E; subst. exists []. split.
        -- destruct T1. split; auto.
        -- simpl. auto.
      * (* still running: look at the queue *)
        assert (Hne : roomy (world s) -> schedule (world s) <> []).
        { intros Hroom Hnil. destruct (Hend1 Hnil) as [_ Hx].
          specialize (Hx Hroom). congruence. }
        destruct (try_get_nowait_spec (Store w1 (log s))) as (f2 & w2 & Ei2 & Eg).
        simpl in Ei2.
        destruct (interleave_spec _ _ _ Hok1 Ei2) as (Hok2 & Hs2 & Hsch2 & _ & _).
        pose proof (took_interleave _ _ _ (log s) Hok1 Ei2) as T2.
        pose proof (took_trans _ _ _ _ _ T1 T2) as T12. simpl in T12.
        assert (Hrc2 : returncode w2 = None).
        { rewrite (same_returncode _ _ Hs2), (same_returncode _ _ Hs1). exact Hrc. }
        assert (Hlen : roomy (world s) ->
                       length (schedule w2) < length (schedule (world s))).
        { intros Hroom. specialize (Hne Hroom). rewrite Hsch2, Hsch1.
          destruct (schedule (world s)) as [|t [|t' sch]];
            simpl; [congruence|lia|lia]. }
        simpl in E. unfold bind at 1 in E. rewrite Eg in E. simpl in E.
        destruct (queue w2) as [|line rest] eqn:Eq.
        -- (* nothing there *)
           destruct (IH (Store w2 (log s)) r s' Hok2 Hrc2 E) as (got & T3 & Hr).
           exists got. split; [exact (took_trans _ _ _ _ _ T12 T3)|].
           destruct r as [u|e|].
           ++ exact Hr.
           ++ destruct (took_schedule _ _ _ T12) as [used Hu].
              exact (in_faults_suffix _ _ _ _ Hu Hr).
           ++ intros Hroom. specialize (Hlen Hroom).
              specialize (Hr (took_roomy _ _ _ T12 Hroom)). simpl in Hr. lia.
        -- (* a line *)
           destruct line as [|b line].
           { exfalso. destruct Hok2 as (_ & Hq & _ & _). rewrite Eq in Hq. inversion Hq; congruence. }
           unfold bind at 1 in E. rewrite capture_spec in E. simpl in E.
           pose proof (took_line w2 (b :: line) rest (log s) Hok2 Eq) as T3.
           pose proof (took_trans _ _ _ _ _ T12 T3) as T123.
           match type of E with _poll_process _ ?s3 = _ =>
             destruct (IH s3 r s' (took_ok _ _ _ T3) Hrc2 E) as (got & T4 & Hr)
           end.
           exists ([b :: line] ++ got). split; [exact (took_trans _ _ _ _ _ T123 T4)|].
           destruct r as [u|e|].
           ++ exact Hr.
           ++ destruct (took_schedule _ _ _ T12) as [used Hu].
              exact (in_faults_suffix _ _ _ _ Hu Hr).
           ++ intros Hroom. specialize (Hlen Hroom).
              specialize (Hr (took_roomy _ _ _ T123 Hroom)). simpl in Hr. lia.
Qed.

(** *** The final drain *)

Lemma queue_empty_spec s :
  exists f w',
    interleave (world s) = (f, w')
    /\ prim queue_empty s
       = (Ret match queue w' with [] => true | _ => false end, Store w' (log s)).
Proof.
  destruct (interleave (world s)) as [f w'] eqn:E. exists f, w'. split; [reflexivity|].
  unfold prim, queue_empty. now rewrite E.
Qed.

Lemma took_length got s s' :
  took got s s' ->
  length (pending_lines (world s)) = length got + length (pending_lines (world s')).
Proof. intros T. rewrite (took_pending _ _ _ T). apply length_app. Qed.

Lemma flush_queue_spec fuel :
  forall s r s',
    ok (world s) ->
    flush_queue fuel s = (r, s') ->
    exists got,
      took got s s'
      /\ returncode (world s') = returncode (world s)
      /\ match r with
         | Ret _ => True
         | Exc _ => False
         | Stuck => fuel <= length (pending_lines (world s))
         end.
Proof.
  induction fuel as [|fuel IH]; intros s r s' Hok E.
  - inversion E; subst. exists []. split; [now apply took_refl|]. split; [reflexivity|lia].
  - cbn [flush_queue] in E.
    destruct (queue_empty_spec s) as (f1 & w1 & Ei1 & Ee).
    unfold bind at 1 in E. rewrite Ee in E.
    destruct (interleave_spec _ _ _ Hok Ei1) as (Hok1 & Hs1 & _).
    pose proof (took_interleave _ _ _ (log s) Hok Ei1) as T1.
    assert (Es : Store (world s) (log s) = s) by now destruct s.
    rewrite Es in T1.
    destruct (queue w1) as [|line0 rest0] eqn:Eq1.
    + (* the queue is empty: the loop ends *)
      inversion E; subst. exists []. split; [exact T1|].
      split; [exact (same_returncode _ _ Hs1) | exact I].
    + destruct (try_get_nowait_spec (Store w1 (log s))) as (f2 & w2 & Ei2 & Eg).
      simpl in Ei2.
      destruct (interleave_spec _ _ _ Hok1 Ei2) as (Hok2 & Hs2 & _).
      pose proof (took_interleave _ _ _ (log s) Hok1 Ei2) as T2.
      pose proof (took_trans _ _ _ _ _ T1 T2) as T12. simpl in T12.
      assert (Hrc2 : returncode w2 = returncode (world s)).
      { now rewrite (same_returncode _ _ Hs2), (same_returncode _ _ Hs1). }
      unfold bind at 1 in E. rewrite Eg in E. simpl in E.
      destruct (same_queue _ _ Hs2) as [more Hmore]. rewrite Eq1 in Hmore.
      destruct (queue w2) as [|line rest] eqn:Eq; [discriminate|].
      destruct line as [|b line].
      { exfalso. destruct Hok2 as (_ & Hq & _ & _). rewrite Eq in Hq. inversion Hq; congruence. }
      unfold bind at 1 in E. rewrite capture_spec in E. simpl in E.
      pose proof (took_line w2 (b :: line) rest (log s) Hok2 Eq) as T3.
      pose proof (took_trans _ _ _ _ _ T12 T3) as T123.
      match type of E with flush_queue _ ?s3 = _ =>
        destruct (IH s3 r s' (took_ok _ _ _ T3) E) as (got & T4 & Hrc4 & Hr)
      end.
      exists ([b :: line] ++ got). split; [exact (took_trans _ _ _ _ _ T123 T4)|].
      split; [rewrite Hrc4; exact Hrc2|].
      destruct r as [u|e|]; auto.
      pose proof (took_length _ _ _ T123) as Hl. simpl in Hl, Hr. simpl. lia.
Qed.

(** *** The termination step on a child whose status is known *)

Lemma safe_kill_of_reaped (w : Live) proc (lg : option logger_id) l st :
  returncode w = Some st ->
  p_args proc <> [] ->
  let lg' := match lg with Some lg => lg | None => logger end in
  safe_kill_processes [proc] lg (Store w l)
  = (Ret tt, Store w (l ++ [terminating_record lg' proc;
                             terminated_record lg' proc (Some st)])).
Proof.
  intros Hrc Hargs lg'. destruct proc as [[|a pargs] pid]; [simpl in Hargs; congruence|].
  unfold safe_kill_processes. fold lg'.
  unfold for_each, on_terminate, try_except, bind, subscript0,
    ret, emit, gets, prim; simpl.
  unfold kill, wait. rewrite Hrc. simpl. rewrite Hrc.
  unfold terminating_record, terminated_record, arg0. simpl.
  rewrite <- app_assoc, Hrc. reflexivity.
Qed.

Lemma child_finish_exited w :
  exited (child w) = true -> child_finish w = w.
Proof.
  intros Hex. unfold child_finish.
  assert (Hstep : set_child (child_step None (child w)) w = w).
  { unfold child_step. rewrite Hex. now destruct w. }
  induction (S (length (todo (child w)))) as [|n IH]; simpl; [reflexivity|].
  rewrite IH. exact Hstep.
Qed.

Lemma cleanup_spec fuel s r s' st :
  ok (world s) ->
  exited (child (world s)) = true ->
  returncode (world s) = Some st ->
  p_args (process (world s)) <> [] ->
  _cleanup_process fuel s = (r, s') ->
  exists got mid,
    took got s mid
    /\ returncode (world mid) = Some st
    /\ match r with
       | Ret stderr =>
         stderr = pending_err (world s)
         /\ s' = Store (drained (world mid))
                   (log mid
                    ++ [terminating_record (cmd_logger (self (world s))) (process (world s));
                        terminated_record (cmd_logger (self (world s))) (process (world s))
                          (Some st)])
       | Exc e => s' = mid /\ In (Some e) (map fault (schedule (world s)))
       | Stuck => s' = mid /\ fuel <= length (pending_lines (world s))
       end.
Proof.
  intros Hok Hex Hrc Hargs E. unfold _cleanup_process in E.
  apply bind_inv in E.
  destruct E as [(u & s1 & E1 & E) | [(e & E1 & ->) | (E1 & ->)]].
  - destruct (flush_queue_spec _ _ _ _ Hok E1) as (got & T1 & Hrc1 & _).
    unfold bind at 1 in E. unfold prim at 1, stderr_read in E.
    destruct (interleave (world s1)) as [f w2] eqn:Ei.
    destruct (interleave_spec _ _ _ (took_ok _ _ _ T1) Ei) as (Hok2 & Hs2 & _ & _ & Hf2).
    pose proof (took_interleave _ _ _ (log s1) (took_ok _ _ _ T1) Ei) as T2.
    assert (Es : Store (world s1) (log s1) = s1) by now destruct s1.
    rewrite Es in T2.
    pose proof (took_trans _ _ _ _ _ T1 T2) as T12. rewrite app_nil_r in T12.
    assert (Hrc2 : returncode w2 = Some st).
    { now rewrite (same_returncode _ _ Hs2), Hrc1. }
    exists got, (Store w2 (log s1)). split; [exact T12|]. split; [exact Hrc2|].
    destruct f as [e|].
    + inversion E; subst. split; [reflexivity|].
      destruct (took_schedule _ _ _ T1) as [used Hu].
      exact (in_faults_suffix _ _ _ _ Hu (Hf2 e eq_refl)).
    + assert (Hex2 : exited (child w2) = true).
      { apply (took_exited _ _ _ T12). exact Hex. }
      rewrite (child_finish_exited _ Hex2) in E.
      fold (drained w2) in E. simpl in E.
      unfold bind at 1 in E. unfold gets at 1 in E. simpl in E.
      unfold bind at 1 in E. unfold gets at 1 in E. simpl in E.
      unfold bind at 1 in E.
      rewrite (safe_kill_of_reaped (drained w2) (process w2) (Some (cmd_logger (self w2)))
                 (log s1) st) in E.
      * unfold ret in E. inversion E; subst; clear E. split.
        -- pose proof (took_err _ _ _ T12) as He. simpl in He. rewrite <- He.
           unfold pending_err. destruct Hok2 as [Htodo _]. rewrite (Htodo Hex2).
           simpl. now rewrite app_nil_r.
        -- pose proof (took_logger _ _ _ T12) as Hl. simpl in Hl. rewrite Hl.
           pose proof (took_process _ _ _ T12) as Hp. simpl in Hp. rewrite Hp.
           reflexivity.
      * exact Hrc2.
      * pose proof (took_process _ _ _ T12) as Hp. simpl in Hp. now rewrite Hp.
  - destruct (flush_queue_spec _ _ _ _ Hok E1) as (got & T1 & Hrc1 & []).
  - destruct (flush_queue_spec _ _ _ _ Hok E1) as (got & T1 & Hrc1 & Hfuel).
    exists got, s'. split; [exact T1|]. split; [now rewrite Hrc1|]. auto.
Qed.

(** *** The body of the [with] statement *)

Lemma stdout_flush_spec s :
  exists f w',
    interleave (world s) = (f, w')
    /\ prim stdout_flush s
       = (match reader w' with Closed => Exc ValueError | _ => Ret tt end,
          Store w' (log s)).
Proof.
  destruct (interleave (world s)) as [f w'] eqn:E. exists f, w'. split; [reflexivity|].
  unfold prim, stdout_flush. rewrite E. destruct (reader w'); reflexivity.
Qed.

Lemma ok_started w : ok w -> ok (set_reader Reading w).
Proof.
  intros (A & B & C & _). split; [|split; [|split]]; auto. simpl. discriminate.
Qed.

Lemma run_body_spec fuel w l r s' :
  ok w -> returncode w = None ->
  args (self w) <> [] -> p_args (process w) <> [] ->
  run_body fuel (Store w l) = (r, s') ->
  exists got mid,
    took got (Store (set_reader Reading w) (l ++ [running_record (self w) (process w)])) mid
    /\ match r with
       | Ret ret_ =>
         ret_ = Some (status (child w))
         /\ returncode (world mid) = Some (status (child w))
         /\ exited (child (world mid)) = true
         /\ reader (snd (interleave (set_reader Reading w))) <> Closed
         /\ s' = Store (set_self (with_stderr (pending_err w) (self (world mid)))
                                 (drained (world mid)))
                       (log mid
                        ++ [terminating_record (cmd_logger (self w)) (process w);
                            terminated_record (cmd_logger (self w)) (process w)
                              (Some (status (child w)))]
                        ++ stderr_records (cmd_logger (self w)) (status (child w))
                             (pending_err w))
       | Exc e =>
         s' = mid
         /\ ((In (Some e) (map fault (schedule w))
              /\ reader (snd (interleave (set_reader Reading w))) <> Closed)
             \/ (e = ValueError /\ got = [] /\ roomy w
                 /\ reader (snd (interleave (set_reader Reading w))) = Closed))
       | Stuck =>
         s' = mid
         /\ reader (snd (interleave (set_reader Reading w))) <> Closed
         /\ ((roomy w -> fuel <= length (tl (schedule w)))
             \/ fuel <= length (pending_lines w))
       end.
Proof.
  intros Hok Hrc Hargs Hpargs E. unfold run_body in E.
  destruct (args (self w)) as [|a rest] eqn:Ea; [congruence|].
  unfold bind at 1 in E. unfold gets at 1 in E. simpl in E.
  unfold bind at 1 in E. unfold gets at 1 in E. simpl in E.
  rewrite Ea in E.
  unfold bind at 1 in E. unfold subscript0, ret at 1 in E.
  unfold bind at 1 in E. unfold emit at 1 in E. simpl in E.
  unfold bind at 1 in E. unfold modify at 1 in E. simpl in E.
  assert (Hrun : LogRecord (cmd_logger (self w)) INFO
                   (MsgRunning a (p_pid (process w)) (a :: rest))
                 = running_record (self w) (process w)).
  { unfold running_record. now rewrite Ea. }
  rewrite Hrun in E.
  set (s0 := Store (set_reader Reading w) (l ++ [running_record (self w) (process w)])) in *.
  assert (Hok0 : ok (world s0)) by exact (ok_started _ Hok).
  (* the flush *)
  destruct (stdout_flush_spec s0) as (f0 & w0 & Ei0 & Ef).
  destruct (interleave_spec _ _ _ Hok0 Ei0) as (Hokf & Hsf & Hschf & _ & _).
  pose proof (took_interleave _ _ _ (log s0) Hok0 Ei0) as T0.
  change (Store (world s0) (log s0)) with s0 in T0.
  assert (Hrcf : returncode w0 = None) by (rewrite (same_returncode _ _ Hsf); exact Hrc).
  assert (Hlenf : length (schedule w0) <= length (schedule w)).
  { rewrite Hschf. simpl. destruct (schedule w); simpl; lia. }
  assert (Hw0 : w0 = snd (interleave (set_reader Reading w))).
  { simpl in Ei0. now rewrite Ei0. }
  apply bind_inv in E.
  destruct E as [(u0 & sf & E0 & E) | [(e & E0 & ->) | (E0 & ->)]].
  2: { (* the stream is closed already *)
    rewrite Ef in E0. destruct (reader w0) eqn:Erd; inversion E0; subst e s'.
    exists [], (Store w0 (log s0)). split; [exact T0|]. split; [reflexivity|].
    right. split; [reflexivity|]. split; [reflexivity|]. split.
    - apply (took_exit_roomy _ _ _ T0). simpl.
      destruct Hokf as (_ & _ & _ & Hcl). exact (Hcl Erd).
    - rewrite <- Hw0. exact Erd. }
  2: { rewrite Ef in E0. destruct (reader w0); inversion E0. }
  assert (Hflushed : sf = Store w0 (log s0) /\ reader w0 <> Closed).
  { rewrite Ef in E0. destruct (reader w0); inversion E0; split; auto; discriminate. }
  destruct Hflushed as [-> Hopen]. rewrite Hw0 in Hopen.
  apply bind_inv in E.
  destruct E as [(u & s1 & E1 & E) | [(e & E1 & ->) | (E1 & ->)]].
  - destruct (poll_loop_spec _ (Store w0 (log s0)) _ _ Hokf Hrcf E1) as (got1 & T1' & Hrc1 & Hex1).
    pose proof (took_trans _ _ _ _ _ T0 T1') as T1. simpl in T1.
    apply bind_inv in E.
    assert (Hst1 : status (child (world s1)) = status (child w)) by exact (took_status _ _ _ T1).
    assert (Hp1 : process (world s1) = process w) by exact (took_process _ _ _ T1).
    assert (Hpargs1 : p_args (process (world s1)) <> []) by now rewrite Hp1.
    rewrite Hst1 in Hrc1.
    destruct E as [(err & s2 & E2 & E) | [(e & E2 & ->) | (E2 & ->)]].
    + destruct (cleanup_spec _ _ _ _ _ (took_ok _ _ _ T1) Hex1 Hrc1 Hpargs1 E2)
        as (got2 & mid & T2 & Hrc2 & -> & ->).
      pose proof (took_trans _ _ _ _ _ T1 T2) as T12.
      exists (got1 ++ got2), mid. split; [exact T12|].
      assert (Herr : pending_err (world s1) = pending_err w) by exact (took_err _ _ _ T1).
      assert (Hlg : cmd_logger (self (world s1)) = cmd_logger (self w))
        by exact (took_logger _ _ _ T1).
      rewrite Herr, Hlg, Hp1 in *.
      unfold bind at 1 in E. unfold gets at 1 in E. simpl in E. rewrite Hrc2 in E.
      destruct (pending_err w) as [|b err] eqn:Ee.
      * unfold ret in E. inversion E; subst; clear E.
        split; [reflexivity|]. split; [exact Hrc2|].
        split; [exact (took_exited _ _ _ T2 Hex1)|]. split; [exact Hopen|].
        unfold stderr_records, with_stderr. reflexivity.
      * unfold bind at 1 in E. rewrite decode_returns in E.
        unfold bind at 1 in E. unfold emit at 1 in E. simpl in E.
        unfold bind at 1 in E. unfold modify at 1 in E. simpl in E.
        unfold ret in E. inversion E; subst; clear E.
        split; [reflexivity|]. split; [exact Hrc2|].
        split; [exact (took_exited _ _ _ T2 Hex1)|]. split; [exact Hopen|].
        unfold stderr_records, truthy.
        destruct (status (child w) =? 0)%Z; simpl; rewrite <- app_assoc; reflexivity.
    + destruct (cleanup_spec _ _ _ _ _ (took_ok _ _ _ T1) Hex1 Hrc1 Hpargs1 E2)
        as (got2 & mid & T2 & Hrc2 & -> & Hin).
      exists (got1 ++ got2), mid. split; [exact (took_trans _ _ _ _ _ T1 T2)|].
      split; [reflexivity|]. left. split; [|exact Hopen].
      destruct (took_schedule _ _ _ T1) as [used Hu].
      exact (in_faults_suffix _ _ _ _ Hu Hin).
    + destruct (cleanup_spec _ _ _ _ _ (took_ok _ _ _ T1) Hex1 Hrc1 Hpargs1 E2)
        as (got2 & mid & T2 & Hrc2 & -> & Hfuel).
      exists (got1 ++ got2), mid. split; [exact (took_trans _ _ _ _ _ T1 T2)|].
      split; [reflexivity|]. split; [exact Hopen|]. right.
      pose proof (took_length _ _ _ T1) as Hl. simpl in Hl.
      change (pending_lines (set_reader Reading w)) with (pending_lines w) in Hl. lia.
  - destruct (poll_loop_spec _ (Store w0 (log s0)) _ _ Hokf Hrcf E1) as (got1 & T1 & Hin).
    exists got1, s'. split; [exact (took_trans _ _ _ _ _ T0 T1)|].
    split; [reflexivity|]. left. split; [|exact Hopen].
    destruct (took_schedule _ _ _ T0) as [used Hu].
    exact (in_faults_suffix _ _ _ _ Hu Hin).
  - destruct (poll_loop_spec _ (Store w0 (log s0)) _ _ Hokf Hrcf E1) as (got1 & T1 & Hfuel).
    exists got1, s'. split; [exact (took_trans _ _ _ _ _ T0 T1)|].
    split; [reflexivity|]. split; [exact Hopen|]. left. intros Hroom.
    assert (Hroomf : roomy w0) by exact (took_roomy _ _ _ T0 Hroom).
    specialize (Hfuel Hroomf). simpl in Hfuel. rewrite Hschf in Hfuel. exact Hfuel.
Qed.

(** *** [run] on a command whose executable is found *)

Lemma spawn_found h prog : found h prog -> spawn h = inr (first_world h prog).
Proof.
  intros [Hargs Hexe]. unfold spawn, first_world. rewrite Hexe.
  destruct (args (this h)); [congruence|reflexivity].
Qed.

Lemma child_finish_self w : self (child_finish w) = self w.
Proof.
  unfold child_finish. induction (S (length (todo (child w)))); simpl; auto.
Qed.

Lemma popen_exit_self w : self (popen_exit w) = self w.
Proof.
  unfold popen_exit. destruct (returncode w); [reflexivity|].
  simpl. apply child_finish_self.
Qed.

Lemma with_stderr_stdout err self_ :
  _stdout_lines (with_stderr err self_) = _stdout_lines self_.
Proof. destruct err; reflexivity. Qed.

Lemma with_stderr_logger err self_ :
  cmd_logger (with_stderr err self_) = cmd_logger self_.
Proof. destruct err; reflexivity. Qed.

Lemma with_stderr_args err self_ : args (with_stderr err self_) = args self_.
Proof. destruct err; reflexivity. Qed.

Lemma with_stderr_stderr err self_ self' :
  _stderr_lines self' = _stderr_lines self_ ->
  _stderr_lines (with_stderr err self') = _stderr_lines (with_stderr err self_).
Proof. destruct err; simpl; auto. Qed.

Lemma first_world_ok h prog : ok (first_world h prog).
Proof.
  split; [|split; [|split]]; simpl; [discriminate | constructor | lia | discriminate].
Qed.

Lemma run_spec fuel h l prog r s' :
  found h prog ->
  run fuel (Store h l) = (r, s') ->
  let lg := cmd_logger (this h) in
  let proc := Popen (args (this h)) (next_pid h) in
  exists got missed,
    Py.lines_of (written_out (script prog)) = got ++ missed
    /\ _stdout_lines (this (world s')) = _stdout_lines (this h) ++ map text got
    /\ args (this (world s')) = args (this h)
    /\ cmd_logger (this (world s')) = lg
    /\ match r with
       | Ret ret_ =>
         ret_ = Some (exit_status prog)
         /\ _stderr_lines (this (world s'))
            = _stderr_lines (with_stderr (written_err (script prog)) (this h))
         /\ log s' = l ++ [running_record (this h) proc]
                       ++ map (line_record lg) got
                       ++ [terminating_record lg proc;
                           terminated_record lg proc (Some (exit_status prog))]
                       ++ stderr_records lg (exit_status prog) (written_err (script prog))
         /\ exists w,
              last (world s') = Some w
              /\ process w = proc
              /\ exited (child w) = true
              /\ returncode w = Some (exit_status prog)
              /\ self w = this (world s')
              /\ length (written_err (script prog)) <= pipe_capacity h
              /\ ~ flush_late h prog
       | Exc e =>
         ((In (Some e) (map fault (pending h)) /\ ~ flush_late h prog)
          \/ (e = ValueError /\ got = []
              /\ length (written_err (script prog)) <= pipe_capacity h
              /\ flush_late h prog))
         /\ _stderr_lines (this (world s')) = _stderr_lines (this h)
         /\ log s' = l ++ [running_record (this h) proc]
                       ++ map (line_record lg) got
                       ++ [LogRecord lg ERROR (MsgException e)]
       | Stuck =>
         ~ flush_late h prog
         /\ ((length (written_err (script prog)) <= pipe_capacity h ->
              fuel <= length (tl (pending h)))
             \/ fuel <= length (Py.lines_of (written_out (script prog))))
       end.
Proof.
  intros Hfound E lg proc.
  pose proof (spawn_found _ _ Hfound) as Hspawn. destruct Hfound as [Hargs Hexe].
  unfold run in E. unfold bind at 1 in E. unfold gets at 1 in E. simpl in E.
  unfold try_except, with_Popen in E. simpl in E. rewrite Hspawn in E.
  destruct (run_body fuel (Store (first_world h prog) l)) as [rb sb] eqn:Eb.
  pose proof (first_world_ok h prog) as Hok.
  destruct (run_body_spec fuel _ l rb sb Hok eq_refl Hargs Hargs Eb) as (got & mid & T & Hr).
  pose proof (took_pending _ _ _ T) as Hpend.
  pose proof (took_stdout _ _ _ T) as Hout.
  pose proof (took_stderr _ _ _ T) as Herr.
  pose proof (took_logger _ _ _ T) as Hlg.
  pose proof (took_args _ _ _ T) as Ha.
  pose proof (took_log _ _ _ T) as Hlog.
  simpl in Hpend, Hout, Herr, Hlg, Ha, Hlog.
  exists got, (pending_lines (world mid)).
  split; [exact Hpend|].
  destruct rb as [ret_|e|].
  - destruct Hr as (-> & Hrc & Hex & Hopen & ->). simpl in E.
    inversion E; subst; clear E. simpl.
    unfold popen_exit. simpl. rewrite Hrc. simpl.
    rewrite with_stderr_stdout, with_stderr_logger, with_stderr_args.
    split; [exact Hout|]. split; [exact Ha|]. split; [exact Hlg|].
    split; [reflexivity|]. split; [now apply with_stderr_stderr|].
    split.
    + rewrite Hlog. rewrite <- !app_assoc. reflexivity.
    + eexists. split; [reflexivity|]. simpl.
      split; [exact (took_process _ _ _ T)|]. split; [exact Hex|].
      split; [exact Hrc|]. split; [reflexivity|]. split; [|exact Hopen].
      exact (took_exit_roomy _ _ _ T Hex).
  - destruct Hr as (-> & Hin). simpl in E.
    unfold bind at 1 in E. unfold emit at 1 in E. simpl in E. unfold raise in E.
    inversion E; subst; clear E. simpl. rewrite popen_exit_self.
    split; [exact Hout|]. split; [exact Ha|]. split; [exact Hlg|].
    split; [exact Hin|]. split; [exact Herr|].
    rewrite Hlog. rewrite <- !app_assoc. reflexivity.
  - destruct Hr as (-> & Hopen & Hfuel). simpl in E.
    inversion E; subst; clear E. simpl. rewrite popen_exit_self.
    split; [exact Hout|]. split; [exact Ha|]. split; [exact Hlg|].
    split; [exact Hopen | exact Hfuel].
Qed.

End RunnerFacts.

(** ** The claims about [run] and [process_command] *)

Section Claims.
Import Runner.

(** X1.  Whatever the schedule, and however [run] ends, the lines captured are
    the first lines the child wrote, in the order it wrote them, each
    decoded; the lines are those of the whole output, however the child's
    writes cut it. *)
Theorem captured_lines_in_order fuel h l prog r s' :
  found h prog ->
  run fuel (Store h l) = (r, s') ->
  exists got missed,
    Py.lines_of (written_out (script prog)) = got ++ missed
    /\ stdout_lines (this (world s')) = stdout_lines (this h) ++ map text got.
Proof.
  intros Hfound E.
  destruct (run_spec _ _ _ _ _ _ Hfound E) as (got & missed & Hl & Hout & _).
  exists got, missed. split; assumption.
Qed.

Lemma captured_lines_in_order_witness :
  exists got missed,
    Py.lines_of (written_out (script two_lines)) = got ++ missed
    /\ stdout_lines (this (world (snd (run 8 (Store (host ["two-lines"%string] late_reader) [])))))
       = [] ++ map text got.
Proof.
  apply (captured_lines_in_order 8 (host ["two-lines"%string] late_reader) [] two_lines
           (fst (run 8 (Store (host ["two-lines"%string] late_reader) [])))).
  - split; [discriminate | reflexivity].
  - now destruct (run 8 (Store (host ["two-lines"%string] late_reader) [])).
Defined.

(** X3.  Both loops of [run] come to an end when all that the child
    writes to standard error fits into the pipe: for such a child, which
    exits after finitely many writes, under every schedule, [run] returns
    or raises within a number of iterations bounded by the length of the
    schedule and of the child's output. *)
Theorem run_ends fuel h l prog :
  found h prog ->
  length (written_err (script prog)) <= pipe_capacity h ->
  length (pending h) + length (written_out (script prog)) < fuel ->
  fst (run fuel (Store h l)) <> Stuck.
Proof.
  intros Hfound Hfits Hfuel Hstuck.
  destruct (run fuel (Store h l)) as [r s'] eqn:E. simpl in Hstuck. subst r.
  destruct (run_spec _ _ _ _ _ _ Hfound E)
    as (got & missed & _ & _ & _ & _ & _ & Hr).
  pose proof (lines_of_length (written_out (script prog))).
  destruct Hr as [Hr|Hr]; [specialize (Hr Hfits)|]; [|lia].
  destruct (pending h); simpl in *; lia.
Qed.

Lemma run_ends_witness :
  found (host ["two-lines"%string] late_reader) two_lines
  /\ fst (run 12 (Store (host ["two-lines"%string] late_reader) [])) <> Stuck.
Proof.
  assert (Hfound : found (host ["two-lines"%string] late_reader) two_lines)
    by (split; [discriminate | reflexivity]).
  split; [exact Hfound|].
  apply (run_ends 12 (host ["two-lines"%string] late_reader) [] two_lines Hfound);
    simpl; lia.
Defined.

Lemma no_fault_in (e : exn) (sched : list tick) :
  Forall (fun t => fault t = None) sched -> ~ In (Some e) (map fault sched).
Proof.
  intros Hall Hin. apply in_map_iff in Hin. destruct Hin as (t & Ht & Hin).
  rewrite Stdlib.Lists.List.Forall_forall in Hall. specialize (Hall t Hin). congruence.
Qed.

(** C1 (the code does not come back).  Nothing reads the standard-error
    pipe before the child has exited.  A child that writes more to standard
    error than the pipe holds therefore waits in a write, [process.poll()]
    never sees it exit, and [run] returns no exit status, whatever the
    bound on the polling loop: unless a system call fails, it polls for
    ever. *)
Theorem run_hangs_on_full_stderr_pipe h l prog :
  found h prog ->
  pipe_capacity h < length (written_err (script prog)) ->
  (forall fuel v s', run fuel (Store h l) <> (Ret v, s'))
  /\ (Forall (fun t => fault t = None) (pending h) ->
      forall fuel, exists s', run fuel (Store h l) = (Stuck, s')).
Proof.
  intros Hfound Hfull.
  assert (Hnever : forall fuel v s', run fuel (Store h l) <> (Ret v, s')).
  { intros fuel v s' E.
    destruct (run_spec _ _ _ _ _ _ Hfound E)
      as (got & missed & _ & _ & _ & _ & _ & _ & _ & w & _ & _ & _ & _ & _ & Hfits & _).
    lia. }
  split; [exact Hnever|].
  intros Hfaults fuel.
  destruct (run fuel (Store h l)) as [r s'] eqn:E.
  destruct r as [v|e|].
  - exfalso. exact (Hnever fuel v s' E).
  - exfalso.
    destruct (run_spec _ _ _ _ _ _ Hfound E)
      as (got & missed & _ & _ & _ & _ & [[Hin _]|(_ & _ & Hfits & _)] & _).
    + exact (no_fault_in _ _ Hfaults Hin).
    + lia.
  - exists s'. reflexivity.
Qed.

Lemma run_hangs_on_full_stderr_pipe_witness :
  exists s', run 8 (Store (host ["noisy-tool"%string] prompt) []) = (Stuck, s').
Proof.
  destruct (run_hangs_on_full_stderr_pipe (host ["noisy-tool"%string] prompt) []
              noisy_tool) as [_ Hhangs].
  - split; [discriminate | reflexivity].
  - vm_compute. lia.
  - apply Hhangs. repeat constructor.
Defined.



(** X13.  When the reader thread has closed the stream before the caller
    flushes it (the child was quick), [process.stdout.flush()] raises
    [ValueError]: [run] logs it and raises it, with no line captured and no
    status returned, although the child ran and exited. *)
Theorem run_raises_when_reader_closed_first fuel h l prog :
  found h prog ->
  flush_late h prog ->
  exists s',
    run fuel (Store h l) = (Exc ValueError, s')
    /\ log s' = l ++ [running_record (this h) (Popen (args (this h)) (next_pid h));
                      LogRecord (cmd_logger (this h)) ERROR (MsgException ValueError)]
    /\ stdout_lines (this (world s')) = stdout_lines (this h)
    /\ stderr_lines (this (world s')) = stderr_lines (this h).
Proof.
  intros Hfound Hlate.
  destruct (run fuel (Store h l)) as [r s'] eqn:E.
  destruct (run_spec _ _ _ _ _ _ Hfound E) as (got & missed & _ & Hout & _ & _ & Hr).
  destruct r as [v|e|].
  - exfalso.
    destruct Hr as (_ & _ & _ & w & _ & _ & _ & _ & _ & _ & Hflush). exact (Hflush Hlate).
  - destruct Hr as ([[_ Hflush]|(-> & -> & _ & _)] & Herr & Hlog).
    + exfalso. exact (Hflush Hlate).
    + exists s'. split; [reflexivity|]. split; [exact Hlog|].
      unfold stdout_lines, stderr_lines. rewrite Hout, Herr. simpl.
      now rewrite app_nil_r.
  - exfalso. destruct Hr as (Hflush & _). exact (Hflush Hlate).
Qed.

Lemma run_raises_when_reader_closed_first_witness :
  exists s', run 8 (Store (echo_host []) []) = (Exc ValueError, s').
Proof.
  destruct (run_raises_when_reader_closed_first 8 (echo_host []) [] echo_hello)
    as (s' & E & _).
  - split; [discriminate | reflexivity].
  - vm_compute. reflexivity.
  - exists s'. exact E.
Defined.

(** C2 (the code loses lines).  The child of [two-lines] writes two lines;
    under the schedule [late_reader] the final drain finds the queue empty
    before the reader has passed the second line on, and [run] returns with
    one line captured. *)
Theorem final_drain_misses_late_lines :
  length (Py.lines_of (written_out (script two_lines))) = 2
  /\ exists s',
       run 8 (Store (host ["two-lines"%string] late_reader) []) = (Ret (Some 0%Z), s')
       /\ stdout_lines (this (world s')) = [str "a" ++ [Py.LF]].
Proof.
  split; [reflexivity|]. eexists. split; [vm_compute; reflexivity|]. reflexivity.
Qed.




(** C4.  When the executable cannot be started, [run] logs the error and
    raises it again; nothing else happens: no status is returned, no process
    is left, and the lines of the object are as they were (none, for a new
    object). *)
Theorem run_propagates_spawn_error fuel h l e :
  spawn h = inl e ->
  run fuel (Store h l)
  = (Exc e, Store h (l ++ [LogRecord (cmd_logger (this h)) ERROR (MsgException e)])).
Proof.
  intros Hspawn. unfold run, bind, gets, try_except, with_Popen, emit, raise; simpl.
  now rewrite Hspawn.
Qed.

Lemma run_propagates_spawn_error_witness :
  exists s',
    run 8 (Store (host ["definitely-not-a-real-binary-xyz"%string] []) [])
    = (Exc FileNotFoundError, s')
    /\ stdout_lines (this (world s')) = []
    /\ stderr_lines (this (world s')) = []
    /\ last (world s') = None.
Proof.
  eexists. split.
  - apply (run_propagates_spawn_error 8
             (host ["definitely-not-a-real-binary-xyz"%string] []) [] FileNotFoundError).
    reflexivity.
  - simpl. auto.
Defined.

(** C5.  [process_command] on the empty argument list logs an error on the
    root logger and returns 1; the machine is as it was: no process was
    started, no thread, and no [CLICommand] was created or run. *)
Theorem process_command_rejects_empty_arguments fuel cwd env (s : store Host) :
  process_command fuel [] cwd env s
  = (Ret (Some 1%Z),
     Store (world s) (log s ++ [LogRecord RootLogger ERROR MsgNoArguments])).
Proof. reflexivity. Qed.

(** C7.  When [run] returns, the child has exited and its status has been
    collected; and the termination primitive, called once more on this
    process, returns without an error record and without touching the
    process or waiting for anything. *)
Theorem run_leaves_no_process_running fuel h l prog v s' :
  found h prog ->
  run fuel (Store h l) = (Ret v, s') ->
  exists w,
    last (world s') = Some w
    /\ exited (child w) = true
    /\ returncode w = Some (exit_status prog)
    /\ forall lg l',
         safe_kill_processes [process w] lg (Store w l')
         = (Ret tt,
            Store w (l' ++ [LogRecord (match lg with Some lg => lg | None => logger end)
                              INFO (MsgTerminating (arg0 (process w)) (p_pid (process w)));
                            LogRecord (match lg with Some lg => lg | None => logger end)
                              INFO (MsgTerminated (arg0 (process w)) (p_pid (process w))
                                      (Some (exit_status prog)))])).
Proof.
  intros Hfound E.
  destruct (run_spec _ _ _ _ _ _ Hfound E)
    as (got & missed & _ & _ & _ & _ & _ & _ & _ & w & Hlast & Hproc & Hex & Hrc & _).
  exists w. split; [exact Hlast|]. split; [exact Hex|]. split; [exact Hrc|].
  intros lg l'. apply safe_kill_of_reaped; [exact Hrc|].
  rewrite Hproc. simpl. apply Hfound.
Qed.

Lemma run_leaves_no_process_running_witness :
  exists w,
    last (world (snd (run 8 (Store (echo_host prompt) [])))) = Some w
    /\ exited (child w) = true.
Proof.
  destruct (run_leaves_no_process_running 8 (echo_host prompt) [] echo_hello (Some 0%Z)
              (snd (run 8 (Store (echo_host prompt) []))))
    as (w & Hlast & Hex & _).
  - split; [discriminate | reflexivity].
  - vm_compute. reflexivity.
  - exists w. split; [exact Hlast | exact Hex].
Defined.

Lemma line_records_info lg got :
  Forall (fun r => rec_level r = INFO) (map (line_record lg) got).
Proof. induction got; simpl; constructor; auto. Qed.

(** C8.  When [run] returns, the standard-error block, if the child wrote
    one, is logged once, at error severity for a non-zero exit status and at
    warning severity for status 0, and [stderr_lines] holds its lines;
    everything else [run] logs is at informational severity.  If the child
    wrote nothing to standard error, nothing is logged above informational
    severity and [stderr_lines] is left as it was (empty, for a new
    object). *)
Theorem stderr_logged_by_exit_status fuel h l prog v s' :
  found h prog ->
  run fuel (Store h l) = (Ret v, s') ->
  v = Some (exit_status prog)
  /\ exists infos,
       Forall (fun r => rec_level r = INFO) infos
       /\ match written_err (script prog) with
          | [] =>
            log s' = l ++ infos
            /\ stderr_lines (this (world s')) = stderr_lines (this h)
          | err =>
            log s' = l ++ infos
                       ++ [LogRecord (cmd_logger (this h))
                             (if (exit_status prog =? 0)%Z then WARNING else ERROR)
                             (MsgText (text err))]
            /\ stderr_lines (this (world s')) = Py.split_lf (text err)
          end.
Proof.
  intros Hfound E.
  destruct (run_spec _ _ _ _ _ _ Hfound E)
    as (got & missed & _ & _ & _ & _ & Hv & Herr & Hlog & _).
  split; [exact Hv|].
  exists ([running_record (this h) (Popen (args (this h)) (next_pid h))]
          ++ map (line_record (cmd_logger (this h))) got
          ++ [terminating_record (cmd_logger (this h)) (Popen (args (this h)) (next_pid h));
              terminated_record (cmd_logger (this h)) (Popen (args (this h)) (next_pid h))
                (Some (exit_status prog))]).
  split.
  - apply Forall_app. split; [repeat constructor|].
    apply Forall_app. split; [apply line_records_info | repeat constructor].
  - unfold stderr_lines. rewrite Herr, Hlog.
    destruct (written_err (script prog)) as [|b err]; simpl.
    + rewrite ?app_nil_r, <- ?app_assoc. split; reflexivity.
    + rewrite <- ?app_assoc. split; reflexivity.
Qed.

Lemma stderr_logged_by_exit_status_witness :
  exists infos,
    Forall (fun r => rec_level r = INFO) infos
    /\ log (snd (run 8 (Store (host ["failing-tool"%string] prompt) [])))
       = infos ++ [LogRecord RootLogger ERROR (MsgText (str "boom" ++ [Py.LF]))]
    /\ stderr_lines (this (world (snd (run 8 (Store (host ["failing-tool"%string] prompt) [])))))
       = [str "boom"; []].
Proof.
  destruct (stderr_logged_by_exit_status 8 (host ["failing-tool"%string] prompt) []
              failing_tool (Some 3%Z)
              (snd (run 8 (Store (host ["failing-tool"%string] prompt) []))))
    as (_ & infos & Hinfos & Hlog & Hlines).
  - split; [discriminate | reflexivity].
  - vm_compute. reflexivity.
  - exists infos. split; [exact Hinfos|]. split; [exact Hlog | exact Hlines].
Defined.

(** The property [stdout] joins the captured lines with line feeds, as if
    they had none: for the two lines "a\n" and "b\n" it gives "a\n\nb\n",
    which is not what the child wrote. *)
Example stdout_doubles_line_feeds :
  stdout (this (world (snd (run 8 (Store (host ["two-lines"%string] prompt) [])))))
  = str "a" ++ [Py.LF; Py.LF] ++ str "b" ++ [Py.LF]
  /\ str_of_bytes (written_out (script two_lines))
     = str "a" ++ [Py.LF] ++ str "b" ++ [Py.LF].
Proof. split; vm_compute; reflexivity. Qed.

(** C10 (the code keeps the line feed).  For [echo hello], whenever [run]
    returns, the exit status is 0 and [stderr_lines] is empty, but
    [stdout_lines] is never [["hello"]]: the line is captured with its line
    feed, as "hello\n", or not at all when the final drain comes before the
    reader thread. *)
Theorem echo_hello_keeps_line_feed sched fuel v s' :
  run fuel (Store (echo_host sched) []) = (Ret v, s') ->
  v = Some 0%Z
  /\ stderr_lines (this (world s')) = []
  /\ (stdout_lines (this (world s')) = [str "hello" ++ [Py.LF]]
      \/ stdout_lines (this (world s')) = [])
  /\ stdout_lines (this (world s')) <> [str "hello"].
Proof.
  intros E.
  assert (Hfound : found (echo_host sched) echo_hello)
    by (split; [discriminate | reflexivity]).
  destruct (run_spec _ _ _ _ _ _ Hfound E)
    as (got & missed & Hlines & Hout & _ & _ & Hv & Herr & _).
  split; [exact Hv|]. split; [exact Herr|].
  unfold stdout_lines. rewrite Hout. simpl.
  change (Py.lines_of (written_out (script echo_hello))) with [hello_line] in Hlines.
  destruct got as [|g got].
  - split; [right; reflexivity | discriminate].
  - simpl in Hlines. inversion Hlines as [[Hg Hrest]].
    destruct got; [|discriminate]. simpl.
    split; [left; reflexivity | discriminate].
Qed.

Lemma echo_hello_keeps_line_feed_witness :
  fst (run 8 (Store (echo_host prompt) [])) = Ret (Some 0%Z)
  /\ stdout_lines (this (world (snd (run 8 (Store (echo_host prompt) [])))))
     = [str "hello" ++ [Py.LF]]
  /\ stdout_lines (this (world (snd (run 8 (Store (echo_host prompt) [])))))
     <> [str "hello"].
Proof.
  split; [vm_compute; reflexivity|]. split; [vm_compute; reflexivity|].
  apply (echo_hello_keeps_line_feed prompt 8 (Some 0%Z)
           (snd (run 8 (Store (echo_host prompt) [])))).
  vm_compute. reflexivity.
Defined.

End Claims.

(** ** The text properties of [CLICommand] and the decoding of well-formed output *)

Section TextFacts.
Import Runner.

Lemma split_lf_nonempty s : Py.split_lf s <> [].
Proof.
  destruct s as [|c s]; simpl; [discriminate|].
  destruct (c =? Py.LF)%N; [discriminate|].
  destruct (Py.split_lf s); discriminate.
Qed.

(** Joining what [split] gave yields the text again. *)
Lemma join_lf_split_lf s : Py.join_lf (Py.split_lf s) = s.
Proof.
  induction s as [|c s IH]; [reflexivity|].
  cbn [Py.split_lf].
  destruct (c =? Py.LF)%N eqn:Ec.
  - apply N.eqb_eq in Ec. subst c.
    pose proof (split_lf_nonempty s) as Hne.
    destruct (Py.split_lf s) as [|l ls] eqn:Es; [congruence|].
    change (Py.join_lf ([] :: l :: ls)) with ([] ++ Py.LF :: Py.join_lf (l :: ls)).
    now rewrite IH.
  - pose proof (split_lf_nonempty s) as Hne.
    destruct (Py.split_lf s) as [|l ls] eqn:Es; [congruence|].
    destruct ls as [|l' ls].
    + simpl in IH. subst l. reflexivity.
    + change (Py.join_lf ((c :: l) :: l' :: ls))
        with ((c :: l) ++ Py.LF :: Py.join_lf (l' :: ls)).
      change (Py.join_lf (l :: l' :: ls)) with (l ++ Py.LF :: Py.join_lf (l' :: ls)) in IH.
      rewrite <- IH. reflexivity.
Qed.

(** X4.  When [run] returns for a child that wrote to standard error, the
    property [stderr] is the decoded standard-error block, character for
    character: splitting it into [stderr_lines] and joining the lines again
    loses nothing. *)
Theorem stderr_property_is_the_decoded_block fuel h l prog v s' :
  found h prog ->
  written_err (script prog) <> [] ->
  run fuel (Store h l) = (Ret v, s') ->
  stderr (this (world s')) = text (written_err (script prog))
  /\ Py.decode_utf8 Py.ignore (written_err (script prog)) = inr (stderr (this (world s'))).
Proof.
  intros Hfound Hne E.
  destruct (run_spec _ _ _ _ _ _ Hfound E)
    as (got & missed & _ & _ & _ & _ & _ & Herr & _).
  assert (Hs : stderr (this (world s')) = text (written_err (script prog))).
  { unfold stderr. rewrite Herr.
    destruct (written_err (script prog)) as [|b err]; [congruence|].
    simpl. apply join_lf_split_lf. }
  split; [exact Hs|]. rewrite Hs. apply decode_utf8_ignore.
Qed.

Lemma stderr_property_is_the_decoded_block_witness :
  stderr (this (world (snd (run 8 (Store (host ["failing-tool"%string] prompt) [])))))
  = str "boom" ++ [Py.LF].
Proof.
  apply (stderr_property_is_the_decoded_block 8 (host ["failing-tool"%string] prompt) []
           failing_tool (Some 3%Z)
           (snd (run 8 (Store (host ["failing-tool"%string] prompt) [])))).
  - split; [discriminate | reflexivity].
  - discriminate.
  - vm_compute. reflexivity.
Defined.

Lemma handle_errors_strict items t :
  Py.handle_errors Py.strict items = inr t -> Py.chars_of items = t.
Proof.
  revert t. induction items as [|[c|n] items IH]; intros t E; simpl in *.
  - now inversion E.
  - destruct (Py.handle_errors Py.strict items) as [e|t']; [discriminate|].
    inversion E; subst. now rewrite (IH t' eq_refl).
  - discriminate.
Qed.

(** X5.  A line that is well-formed UTF-8 (one that the strict decoder
    accepts) is captured and logged as exactly the text the strict decoder
    gives: the 'ignore' handler changes nothing for well-formed output. *)
Theorem well_formed_line_captured_exactly (line : list byte) (t : pystr)
    (s : store Live) :
  Py.decode_utf8 Py.strict line = inr t ->
  exists s',
    capture line s = (Ret tt, s')
    /\ _stdout_lines (self (world s')) = _stdout_lines (self (world s)) ++ [t]
    /\ log s' = log s ++ [LogRecord (cmd_logger (self (world s))) INFO (MsgText t)].
Proof.
  intros Hstrict.
  assert (Ht : text line = t) by (apply handle_errors_strict; exact Hstrict).
  rewrite capture_spec. eexists. split; [reflexivity|].
  simpl. unfold line_record. rewrite Ht. split; reflexivity.
Qed.

Lemma well_formed_line_captured_exactly_witness :
  exists s',
    capture [xe2; x82; xac; x0a] (Store (first_world (echo_host prompt) echo_hello) [])
    = (Ret tt, s')
    /\ _stdout_lines (self (world s')) = [[8364%N; Py.LF]].
Proof.
  destruct (well_formed_line_captured_exactly [xe2; x82; xac; x0a] [8364%N; Py.LF]
              (Store (first_world (echo_host prompt) echo_hello) []))
    as (s' & E & Hout & _).
  - reflexivity.
  - exists s'. split; [exact E | exact Hout].
Defined.

Lemma text_ascii (line : list byte) :
  Forall (fun b => (Byte.to_N b < 128)%N) line ->
  text line = str_of_bytes line.
Proof.
  induction 1 as [|b line Hb _ IH]; [reflexivity|].
  unfold text in *. cbn [Py.utf8_scan str_of_bytes map].
  apply N.ltb_lt in Hb. change 128%N with 0x80%N in Hb. rewrite Hb.
  cbn [Py.chars_of]. now rewrite IH.
Qed.

(** X6.  A line of ASCII bytes is decoded, captured and logged byte for
    byte, its line feed included: the text is the bytes, it is appended to
    the captured lines, and it is the one record logged, at informational
    severity. *)
Theorem ascii_line_captured_verbatim (line : list byte) (s : store Live) :
  Forall (fun b => (Byte.to_N b < 128)%N) line ->
  decode line s = (Ret (str_of_bytes line), s)
  /\ exists s',
       capture line s = (Ret tt, s')
       /\ _stdout_lines (self (world s'))
          = _stdout_lines (self (world s)) ++ [str_of_bytes line]
       /\ log s' = log s ++ [LogRecord (cmd_logger (self (world s))) INFO
                               (MsgText (str_of_bytes line))].
Proof.
  intros Hascii. rewrite decode_returns, capture_spec.
  unfold line_record. rewrite (text_ascii line Hascii).
  split; [reflexivity|]. eexists. split; [reflexivity|]. split; reflexivity.
Qed.

Lemma ascii_line_captured_verbatim_witness :
  exists s',
    capture hello_line (Store (first_world (echo_host prompt) echo_hello) []) = (Ret tt, s')
    /\ _stdout_lines (self (world s')) = [str "hello" ++ [Py.LF]]
    /\ log s' = [LogRecord RootLogger INFO (MsgText (str "hello" ++ [Py.LF]))].
Proof.
  destruct (ascii_line_captured_verbatim hello_line
              (Store (first_world (echo_host prompt) echo_hello) []))
    as (_ & s' & E & Hout & Hlog).
  - repeat constructor.
  - exists s'. split; [exact E|]. split; [exact Hout | exact Hlog].
Defined.

End TextFacts.

(** ** When nothing is lost *)

Section CaptureFacts.
Import Runner.

Lemma done_turn t w : ok w -> reader_done w -> run_thread t w = w.
Proof.
  intros _ (Hr & Hp & Hex). destruct t; simpl.
  - unfold child_step. rewrite Hex. now destruct w.
  - unfold enqueue_output. now rewrite Hr.
Qed.

Lemma done_threads ts w : ok w -> reader_done w -> run_threads ts w = w.
Proof.
  intros Hok Hd. induction ts as [|t ts IH]; simpl; [reflexivity|].
  now rewrite (done_turn t w Hok Hd).
Qed.

Lemma done_iter t n w : ok w -> reader_done w -> Nat.iter n (run_thread t) w = w.
Proof.
  intros Hok Hd. induction n as [|n IH]; simpl; [reflexivity|].
  rewrite IH. now apply done_turn.
Qed.

Lemma interleave_done w f w' :
  ok w -> reader_done w -> interleave w = (f, w') ->
  w' = set_schedule (tl (schedule w)) w.
Proof.
  intros Hok Hd E. unfold interleave in E.
  destruct (schedule w) as [|t rest] eqn:Es.
  - inversion E; subst. unfold settle, child_runs.
    rewrite (done_iter ChildThread _ w Hok Hd), (done_iter ReaderThread _ w Hok Hd).
    destruct w; simpl in *. now subst.
  - inversion E; subst. simpl. apply done_threads; assumption.
Qed.

Lemma take_line_length buf line rest :
  Py.take_line buf = Some (line, rest) -> length buf = length line + length rest.
Proof.
  revert line rest. induction buf as [|b buf IH]; intros line rest E; simpl in E.
  - discriminate.
  - destruct (Py.is_newline b).
    + inversion E; subst. reflexivity.
    + destruct (Py.take_line buf) as [[l r]|]; [|discriminate].
      inversion E; subst. simpl. now rewrite (IH l rest eq_refl).
Qed.

(** After the child's exit the reader needs one turn for each line left in
    the pipe, and one to find the end of the stream. *)
Lemma reader_finishes n w :
  ok w -> exited (child w) = true -> reader w = Reading ->
  length (stdout_pipe (child w)) < n ->
  reader_done (Nat.iter n (run_thread ReaderThread) w)
  /\ ok (Nat.iter n (run_thread ReaderThread) w).
Proof.
  revert w. induction n as [|n IH]; intros w Hok Hex Hr Hn; [lia|].
  rewrite Nat.iter_succ_r.
  destruct (reader_turn w Hok) as [Hok1 Hs1].
  pose proof (same_exited _ _ Hs1 Hex) as Hex1.
  simpl in *. unfold enqueue_output, readline in *. rewrite Hr, Hex in *.
  destruct (Py.take_line (stdout_pipe (child w))) as [[line rest]|] eqn:Et.
  - destruct (take_line_Some _ _ _ Et) as [Hne _].
    pose proof (take_line_length _ _ _ Et) as Hlen.
    destruct line as [|b line]; [congruence|].
    apply IH; auto. simpl in *. lia.
  - destruct (stdout_pipe (child w)) as [|b pipe] eqn:Ep.
    + assert (Hd : reader_done (set_reader Closed w)) by (repeat split; auto).
      rewrite (done_iter ReaderThread n _ Hok1 Hd). split; assumption.
    + apply IH; auto. simpl in *. lia.
Qed.

Lemma child_runs_reader w : reader (child_runs w) = reader w.
Proof.
  unfold child_runs. induction (S (length (todo (child w)))); simpl; auto.
Qed.

Lemma settle_done w :
  ok w -> roomy w -> reader w = Reading -> reader_done (settle w) /\ ok (settle w).
Proof.
  intros Hok Hroom Hr. unfold settle.
  destruct (iter_turn ChildThread (S (length (todo (child w)))) w Hok) as [Hok1 _].
  fold (child_runs w) in *.
  apply reader_finishes; auto.
  - unfold child_runs. apply child_exits; auto.
  - now rewrite child_runs_reader.
Qed.

Lemma done_pending w : ok w -> reader_done w -> pending_lines w = queue w.
Proof.
  intros [Htodo _] (_ & Hp & Hex). unfold pending_lines.
  rewrite Hp, (Htodo Hex). simpl. now rewrite app_nil_r.
Qed.

(** With the reader done, the final drain empties the queue. *)
Lemma flush_queue_done fuel :
  forall s u s',
    ok (world s) -> reader_done (world s) ->
    flush_queue fuel s = (Ret u, s') ->
    queue (world s') = [] /\ reader_done (world s') /\ ok (world s').
Proof.
  induction fuel as [|fuel IH]; intros s u s' Hok Hd E; [discriminate|].
  cbn [flush_queue] in E.
  destruct (queue_empty_spec s) as (f1 & w1 & Ei1 & Ee).
  unfold bind at 1 in E. rewrite Ee in E.
  pose proof (interleave_done _ _ _ Hok Hd Ei1) as Hw1.
  assert (Hok1 : ok w1) by (subst w1; exact Hok).
  assert (Hd1 : reader_done w1) by (subst w1; exact Hd).
  destruct (queue w1) as [|line0 rest0] eqn:Eq1.
  - inversion E; subst s'. simpl. auto.
  - destruct (try_get_nowait_spec (Store w1 (log s))) as (f2 & w2 & Ei2 & Eg).
    simpl in Ei2.
    pose proof (interleave_done _ _ _ Hok1 Hd1 Ei2) as Hw2.
    assert (Hok2 : ok w2) by (subst w2; exact Hok1).
    assert (Hd2 : reader_done w2) by (subst w2; exact Hd1).
    assert (Eq2 : queue w2 = line0 :: rest0) by (subst w2; exact Eq1).
    unfold bind at 1 in E. rewrite Eg in E. simpl in E. rewrite Eq2 in E.
    destruct line0 as [|b line0].
    { exfalso. destruct Hok2 as (_ & Hq & _ & _). rewrite Eq2 in Hq. inversion Hq; congruence. }
    unfold bind at 1 in E. rewrite capture_spec in E. simpl in E.
    pose proof (took_line w2 (b :: line0) rest0 (log s) Hok2 Eq2) as T.
    match type of E with flush_queue _ ?s3 = _ =>
      apply (IH s3 u s' (took_ok _ _ _ T)); [|exact E]
    end.
    exact Hd2.
Qed.

Lemma poll_settles f s :
  ok (world s) -> roomy (world s) -> returncode (world s) = None ->
  schedule (world s) = [] -> reader (world s) = Reading ->
  exists w1,
    _poll_process (S f) s = (Ret tt, Store w1 (log s))
    /\ ok w1 /\ reader_done w1
    /\ returncode w1 = Some (status (child w1))
    /\ process w1 = process (world s).
Proof.
  intros Hok Hroom Hrc Hsch Hr.
  destruct (settle_done _ Hok Hroom Hr) as [Hd1 Hok1].
  destruct (interleave (world s)) as [f0 w0] eqn:Ei.
  destruct (interleave_spec _ _ _ Hok Ei) as (_ & Hs & _ & Hend & _).
  destruct (Hend Hsch) as [-> Hex]. specialize (Hex Hroom).
  assert (Hw0 : w0 = settle (world s)).
  { unfold interleave in Ei. rewrite Hsch in Ei. now inversion Ei. }
  exists (set_returncode (Some (status (child w0))) w0).
  split; [|split; [|split; [|split]]].
  - cbn [_poll_process]. unfold bind at 1. unfold prim at 1, poll.
    rewrite Hrc, Ei, Hex. reflexivity.
  - subst w0. exact Hok1.
  - subst w0. exact Hd1.
  - reflexivity.
  - simpl. exact (same_process _ _ Hs).
Qed.

Lemma cleanup_done fuel s err s' st :
  ok (world s) -> reader_done (world s) ->
  returncode (world s) = Some st ->
  p_args (process (world s)) <> [] ->
  _cleanup_process fuel s = (Ret err, s') ->
  pending_lines (world s') = [].
Proof.
  intros Hok Hd Hrc Hargs E. unfold _cleanup_process in E.
  apply bind_inv in E.
  destruct E as [(u & s1 & E1 & E) | [(e & _ & He) | (_ & He)]]; try discriminate.
  destruct (flush_queue_done _ _ _ _ Hok Hd E1) as (Hq1 & Hd1 & Hok1).
  destruct (flush_queue_spec _ _ _ _ Hok E1) as (got & T1 & Hrc1 & _).
  unfold bind at 1 in E. unfold prim at 1, stderr_read in E.
  destruct (interleave (world s1)) as [f w2] eqn:Ei.
  pose proof (interleave_done _ _ _ Hok1 Hd1 Ei) as Hw2.
  destruct f as [e|]; [discriminate|].
  assert (Hd2 : reader_done w2) by (subst w2; exact Hd1).
  assert (Hok2 : ok w2) by (subst w2; exact Hok1).
  assert (Hq2 : queue w2 = []) by (subst w2; exact Hq1).
  assert (Hrc2 : returncode w2 = Some st) by (subst w2; simpl; congruence).
  assert (Hp2 : process w2 = process (world s)).
  { subst w2. simpl. exact (took_process _ _ _ T1). }
  destruct Hd2 as (Hr2 & Hpipe2 & Hex2).
  rewrite (child_finish_exited _ Hex2) in E.
  fold (drained w2) in E. simpl in E.
  unfold bind at 1 in E. unfold gets at 1 in E. simpl in E.
  unfold bind at 1 in E. unfold gets at 1 in E. simpl in E.
  unfold bind at 1 in E.
  rewrite (safe_kill_of_reaped (drained w2) (process w2) (Some (cmd_logger (self w2)))
             (log s1) st Hrc2) in E by (rewrite Hp2; exact Hargs).
  unfold ret in E. inversion E; subst s'. simpl.
  unfold pending_lines. simpl. rewrite Hq2, Hpipe2.
  destruct Hok2 as [Htodo _]. now rewrite (Htodo Hex2).
Qed.

(** With at most one tick, which the flush uses up, a returning run has
    taken every line. *)
Lemma run_body_done fuel w l v s' :
  ok w -> returncode w = None -> length (schedule w) <= 1 ->
  args (self w) <> [] -> p_args (process w) <> [] ->
  run_body fuel (Store w l) = (Ret v, s') ->
  pending_lines (world s') = [].
Proof.
  intros Hok Hrc Hsch Hargs Hpargs E.
  destruct (run_body_spec fuel w l _ _ Hok Hrc Hargs Hpargs E)
    as (got & mid & T & _ & _ & Hex & _).
  assert (Hroom : roomy w) by exact (took_exit_roomy _ _ _ T Hex).
  clear got mid T Hex.
  unfold run_body in E.
  destruct (args (self w)) as [|a rest] eqn:Ea; [congruence|].
  unfold bind at 1 in E. unfold gets at 1 in E. simpl in E.
  unfold bind at 1 in E. unfold gets at 1 in E. simpl in E.
  rewrite Ea in E.
  unfold bind at 1 in E. unfold subscript0, ret at 1 in E.
  unfold bind at 1 in E. unfold emit at 1 in E. simpl in E.
  unfold bind at 1 in E. unfold modify at 1 in E. simpl in E.
  match type of E with bind (prim stdout_flush) _ ?s0 = _ => set (s0' := s0) in * end.
  assert (Hok0 : ok (world s0')) by exact (ok_started _ Hok).
  destruct (stdout_flush_spec s0') as (f0 & w0 & Ei0 & Ef).
  destruct (interleave_spec _ _ _ Hok0 Ei0) as (Hokf & Hsf & Hschf & _ & _).
  unfold bind at 1 in E. rewrite Ef in E.
  assert (Hrd : reader w0 <> NotStarted).
  { apply (same_started _ _ Hsf). simpl. discriminate. }
  destruct (reader w0) eqn:Erd; [congruence| |discriminate].
  assert (Hschf0 : schedule w0 = []).
  { rewrite Hschf. simpl. destruct (schedule w) as [|t [|t' sch]]; simpl in *;
      [reflexivity | reflexivity | lia]. }
  destruct fuel as [|fuel]; [discriminate|].
  destruct (poll_settles fuel (Store w0 (log s0')))
    as (w1 & Ep & Hok1 & Hd1 & Hrc1 & Hp1); auto.
  { exact (same_roomy _ _ Hsf Hroom). }
  { simpl. rewrite (same_returncode _ _ Hsf). exact Hrc. }
  rewrite (bind_ret _ _ _ _ _ Ep) in E.
  apply bind_inv in E.
  destruct E as [(err & s2 & E2 & E) | [(e & _ & He) | (_ & He)]]; try discriminate.
  assert (Hpend : pending_lines (world s2) = []).
  { refine (cleanup_done _ (Store w1 _) _ _ _ Hok1 Hd1 Hrc1 _ E2).
    simpl. rewrite Hp1. simpl. rewrite (same_process _ _ Hsf). exact Hpargs. }
  unfold bind at 1 in E. unfold gets at 1 in E. simpl in E.
  destruct err as [|b err].
  - unfold ret in E. inversion E; subst. exact Hpend.
  - unfold bind at 1 in E. rewrite decode_returns in E.
    unfold bind at 1 in E. unfold emit at 1 in E. simpl in E.
    unfold bind at 1 in E. unfold modify at 1 in E. simpl in E.
    unfold ret in E. inversion E; subst. exact Hpend.
Qed.

(** How a returning [run] leaves the machine: the same executables and
    pipes, the next PID, and the schedule of the next command. *)
Lemma run_frame fuel h l prog v s' :
  found h prog ->
  run fuel (Store h l) = (Ret v, s') ->
  v = Some (exit_status prog)
  /\ executables (world s') = executables h
  /\ next_pid (world s') = S (next_pid h)
  /\ pending (world s') = hd [] (later h)
  /\ later (world s') = tl (later h)
  /\ pipe_capacity (world s') = pipe_capacity h
  /\ exists new, log s' = l ++ running_record (this h) (Popen (args (this h)) (next_pid h))
                              :: new.
Proof.
  intros Hfound E.
  pose proof (spawn_found _ _ Hfound) as Hspawn.
  destruct (run_spec _ _ _ _ _ _ Hfound E)
    as (got & missed & _ & _ & _ & _ & Hv & _ & Hlog & _).
  split; [exact Hv|].
  unfold run in E. unfold bind at 1 in E. unfold gets at 1 in E. simpl in E.
  unfold try_except, with_Popen in E. simpl in E. rewrite Hspawn in E.
  destruct (run_body fuel (Store (first_world h prog) l)) as [rb sb] eqn:Eb.
  destruct rb as [ret_|e|]; simpl in E.
  - inversion E; subst; clear E. simpl.
    repeat (split; [reflexivity|]).
    eexists. simpl in Hlog. exact Hlog.
  - unfold bind at 1 in E. unfold emit at 1 in E. simpl in E. unfold raise in E.
    discriminate.
  - discriminate.
Qed.



End CaptureFacts.

(** ** [process_command] and the sequence of commands of the script *)

Section DriverFacts.
Import Runner.

Lemma started_app a b : started (a ++ b) = started a ++ started b.
Proof.
  induction a as [|r a IH]; simpl; [reflexivity|].
  destruct (rec_msg r); simpl; now rewrite ?IH.
Qed.

Lemma started_lines lg got : started (map (line_record lg) got) = [].
Proof. induction got; simpl; auto. Qed.

Lemma started_stderr lg st err : started (stderr_records lg st err) = [].
Proof. destruct err; reflexivity. Qed.

Lemma for_each_app {W A} (xs ys : list A) (body : A -> M W unit) s :
  for_each (xs ++ ys) body s = bind (for_each xs body) (fun _ => for_each ys body) s.
Proof.
  revert s. induction xs as [|x xs IH]; intros s; simpl.
  - reflexivity.
  - change ((body x;; for_each (xs ++ ys) body) s
            = ((body x;; for_each xs body);; for_each ys body) s).
    unfold bind.
    destruct (body x s) as [[[]|e|] s1]; auto.
Qed.

Lemma process_command_runs fuel args cwd env h l :
  args <> [] ->
  process_command fuel args cwd env (Store h l)
  = run fuel (Store (fresh h args cwd env) l).
Proof. destruct args; [congruence|reflexivity]. Qed.

(** X8.  [process_command] on a non-empty command that is found runs it on
    an object of its own: what it returns is the exit status, every record
    goes to the root logger, and the lines the object holds afterwards are
    those of this command alone, whatever was run before. *)
Theorem process_command_starts_afresh fuel args cwd env h l prog v s' :
  args <> [] ->
  executables h args cwd env = inr prog ->
  process_command fuel args cwd env (Store h l) = (Ret v, s') ->
  v = Some (exit_status prog)
  /\ (exists got missed,
        Py.lines_of (written_out (script prog)) = got ++ missed
        /\ stdout_lines (this (world s')) = map text got)
  /\ stderr_lines (this (world s'))
     = match written_err (script prog) with
       | [] => []
       | err => Py.split_lf (text err)
       end
  /\ exists new, log s' = l ++ new /\ Forall (fun r => rec_logger r = RootLogger) new.
Proof.
  intros Hargs Hexe E. rewrite (process_command_runs _ _ _ _ _ _ Hargs) in E.
  assert (Hfound : found (fresh h args cwd env) prog) by (split; assumption).
  destruct (run_spec _ _ _ _ _ _ Hfound E)
    as (got & missed & Hlines & Hout & _ & _ & Hv & Herr & Hlog & _).
  split; [exact Hv|]. split; [exists got, missed; split; assumption|].
  split.
  - unfold stderr_lines. rewrite Herr. now destruct (written_err (script prog)).
  - eexists. split; [exact Hlog|]. simpl.
    constructor; [reflexivity|].
    apply Forall_app. split.
    + clear. induction got; simpl; constructor; auto.
    + constructor; [reflexivity|]. constructor; [reflexivity|].
      destruct (written_err (script prog)); simpl; repeat constructor.
Qed.

Lemma process_command_starts_afresh_witness :
  stdout_lines (this (world after_two_lines)) = [str "a" ++ [Py.LF]; str "b" ++ [Py.LF]]
  /\ exists got missed,
       Py.lines_of (written_out (script echo_hello)) = got ++ missed
       /\ stdout_lines
            (this (world (snd (process_command 8 ["echo"%string] None None after_two_lines))))
          = map text got.
Proof.
  split; [vm_compute; reflexivity|].
  apply (process_command_starts_afresh 8 ["echo"%string] None None
           (world after_two_lines) (log after_two_lines) echo_hello (Some 0%Z)
           (snd (process_command 8 ["echo"%string] None None after_two_lines))).
  - discriminate.
  - reflexivity.
  - vm_compute. reflexivity.
Defined.

Lemma spawn_error_leaves fuel h l e :
  spawn h = inl e ->
  run fuel (Store h l)
  = (Exc e, Store h (l ++ [LogRecord (cmd_logger (this h)) ERROR (MsgException e)])).
Proof.
  intros Hspawn. unfold run, bind, gets, try_except, with_Popen, emit, raise; simpl.
  now rewrite Hspawn.
Qed.

Lemma reader_untouched ts w :
  ~ In ReaderThread ts -> reader (run_threads ts w) = reader w.
Proof.
  revert w. induction ts as [|t ts IH]; intros w Hno; simpl; [reflexivity|].
  rewrite IH by (intros Hin; apply Hno; now right).
  destruct t; [reflexivity|]. exfalso. apply Hno. now left.
Qed.

(** When the reader thread gets no turn before the flush, the flush comes
    in time. *)
Lemma steady_flush h prog : steady (pending h) -> ~ flush_late h prog.
Proof.
  intros (t & rest & Hsch & Hno). unfold flush_late, interleave. simpl.
  rewrite Hsch. simpl. rewrite (reader_untouched _ _ Hno). simpl. discriminate.
Qed.

(** One command of a sequence: it is run to its end, whatever its status. *)
Lemma process_command_step fuel exe cwd cmd h l :
  executables h = exe ->
  runnable fuel (pipe_capacity h) exe cwd cmd (pending h) ->
  exists v s',
    process_command fuel cmd cwd None (Store h l) = (Ret v, s')
    /\ executables (world s') = exe
    /\ next_pid (world s') = S (next_pid h)
    /\ pending (world s') = hd [] (later h)
    /\ later (world s') = tl (later h)
    /\ pipe_capacity (world s') = pipe_capacity h
    /\ started (log s') = started l ++ [cmd].
Proof.
  intros Hexe (Hcmd & prog & Hprog & Hfits & Hff & Hsteady & Hfuel).
  rewrite (process_command_runs _ _ _ _ _ _ Hcmd).
  assert (Hfound : found (fresh h cmd cwd None) prog).
  { split; [exact Hcmd|]. simpl. now rewrite Hexe. }
  assert (Hflush : ~ flush_late (fresh h cmd cwd None) prog)
    by (apply steady_flush; exact Hsteady).
  destruct (run fuel (Store (fresh h cmd cwd None) l)) as [r s'] eqn:E.
  destruct (run_spec _ _ _ _ _ _ Hfound E) as (got & missed & _ & _ & _ & _ & Hr).
  destruct r as [v|e|].
  - destruct (run_frame _ _ _ _ _ _ Hfound E)
      as (_ & Hx & Hpid & Hpend & Hlater & Hcap & _).
    destruct Hr as (_ & _ & Hlog & _).
    exists v, s'. split; [reflexivity|]. split; [now rewrite Hx|].
    split; [exact Hpid|]. split; [exact Hpend|]. split; [exact Hlater|].
    split; [exact Hcap|].
    rewrite Hlog, !started_app, started_lines, started_stderr. simpl.
    rewrite ?app_nil_r. reflexivity.
  - exfalso. destruct Hr as ([[Hin _]|(_ & _ & _ & Hlate)] & _).
    + exact (no_fault_in _ _ Hff Hin).
    + exact (Hflush Hlate).
  - exfalso. pose proof (lines_of_length (written_out (script prog))).
    destruct Hr as (_ & [Hr|Hr]); [specialize (Hr Hfits)|]; [|lia].
    simpl in Hr. destruct (pending h); simpl in *; lia.
Qed.

Lemma firstn_later {A} (R : list string -> list A -> Prop) cmds (scheds : list (list A)) :
  Forall2 R cmds (firstn (length cmds) scheds) ->
  Forall2 R cmds (firstn (length cmds) (hd [] scheds :: tl scheds)).
Proof.
  destruct scheds as [|x xs]; [|exact (fun H => H)].
  destruct cmds as [|c cmds]; simpl; [constructor|]. intros H. inversion H.
Qed.

Lemma issue_all fuel cwd cmds :
  forall h l,
    all_runnable fuel h cwd cmds ->
    exists s',
      issue fuel cwd cmds (Store h l) = (Ret tt, s')
      /\ executables (world s') = executables h
      /\ next_pid (world s') = next_pid h + length cmds
      /\ pipe_capacity (world s') = pipe_capacity h
      /\ started (log s') = started l ++ cmds.
Proof.
  unfold all_runnable, schedules.
  induction cmds as [|cmd cmds IH]; intros h l Hall.
  - exists (Store h l). simpl. unfold ret. rewrite app_nil_r.
    repeat split; auto.
  - simpl in Hall. inversion Hall as [|? ? ? ? Hcmd Hrest]; subst.
    destruct (process_command_step fuel (executables h) cwd cmd h l eq_refl Hcmd)
      as (v & s1 & E1 & Hx1 & Hpid1 & Hpend1 & Hlater1 & Hcap1 & Hst1).
    destruct s1 as [h1 l1]. simpl in *.
    destruct (IH h1 l1) as (s' & E & Hx & Hpid & Hcap & Hst).
    { rewrite Hx1, Hcap1, Hpend1, Hlater1. apply firstn_later. exact Hrest. }
    exists s'. split; [|split; [|split; [|split]]].
    + unfold issue in *. cbn [for_each]. unfold bind at 1. unfold bind at 1.
      rewrite E1. exact E.
    + now rewrite Hx.
    + rewrite Hpid, Hpid1. lia.
    + now rewrite Hcap.
    + rewrite Hst, Hst1, <- app_assoc. reflexivity.
Qed.

Lemma issue_stops fuel cwd pre cmd post e h l :
  all_runnable fuel h cwd pre ->
  cmd <> [] ->
  executables h cmd cwd None = inl e ->
  exists s',
    issue fuel cwd (pre ++ cmd :: post) (Store h l) = (Exc e, s')
    /\ next_pid (world s') = next_pid h + length pre
    /\ started (log s') = started l ++ pre
    /\ exists before, log s' = before ++ [LogRecord RootLogger ERROR (MsgException e)].
Proof.
  intros Hpre Hcmd He.
  destruct (issue_all fuel cwd pre h l Hpre)
    as ([h1 l1] & E1 & Hx1 & Hpid1 & _ & Hst1).
  simpl in *.
  exists (Store (fresh h1 cmd cwd None)
                (l1 ++ [LogRecord RootLogger ERROR (MsgException e)])).
  split; [|split; [|split]].
  - unfold issue in *. rewrite for_each_app. rewrite (bind_ret _ _ _ _ _ E1).
    cbn [for_each]. unfold bind at 1. unfold bind at 1.
    rewrite (process_command_runs _ _ _ _ _ _ Hcmd).
    rewrite (spawn_error_leaves fuel (fresh h1 cmd cwd None) l1 e); [reflexivity|].
    unfold spawn. simpl. rewrite Hx1, He. destruct cmd; [congruence|reflexivity].
  - simpl. exact Hpid1.
  - simpl. rewrite started_app, Hst1. simpl. now rewrite app_nil_r.
  - simpl. eexists. reflexivity.
Qed.

Section ScriptFacts.
Variable fspath : Exporter.Path -> string.

Lemma commands_nonempty ns cmd :
  In cmd (Exporter.commands ns) -> map (Exporter.render fspath) cmd <> [].
Proof.
  unfold Exporter.commands. intros Hin.
  apply in_app_or in Hin. destruct Hin as [Hin|Hin].
  - destruct (Exporter.build_non_mono_tools ns); simpl in Hin;
      intuition (subst; discriminate).
  - simpl in Hin. intuition (subst; discriminate).
Qed.

Lemma build_and_bundle_issues fuel ns s :
  Exporter.build_and_bundle fspath fuel ns s
  = issue fuel (Some (fspath (Exporter.engine_path ns)))
      (map (map (Exporter.render fspath)) (Exporter.commands ns)) s.
Proof.
  unfold Exporter.build_and_bundle, Exporter.commands, issue, Exporter.call.
  destruct (Exporter.build_non_mono_tools ns); cbn [app map for_each option_map];
    unfold bind, ret;
    repeat match goal with
           | |- context [process_command ?f ?c ?d ?e ?st] =>
             destruct (process_command f c d e st) as [[?|?|] ?]; try reflexivity
           end.
Qed.

(** X9.  The script drops every status [process_command] returns: when
    each of its commands is found and comes back (its standard error fits
    into the pipe, the flush comes in time, no system call fails), all of
    them are run, in the order of the script (nine with the non-monolithic
    tools, six without), whatever their exit statuses. *)
Theorem build_and_bundle_runs_every_command fuel ns h l :
  all_runnable fuel h (Some (fspath (Exporter.engine_path ns)))
    (map (map (Exporter.render fspath)) (Exporter.commands ns)) ->
  exists s',
    Exporter.build_and_bundle fspath fuel ns (Store h l) = (Ret tt, s')
    /\ started (log s')
       = started l ++ map (map (Exporter.render fspath)) (Exporter.commands ns)
    /\ next_pid (world s')
       = next_pid h + (if Exporter.build_non_mono_tools ns then 9 else 6).
Proof.
  intros Hall. rewrite build_and_bundle_issues.
  destruct (issue_all fuel _ _ h l Hall) as (s' & E & _ & Hpid & _ & Hst).
  exists s'. split; [exact E|]. split; [exact Hst|].
  rewrite Hpid, length_map. unfold Exporter.commands.
  destruct (Exporter.build_non_mono_tools ns); reflexivity.
Qed.

(** X10.  A command whose executable cannot be started ends the script
    there: when the commands before it have come back, the error is logged
    and raised, and none of the commands after it is started. *)
Theorem build_and_bundle_stops_at_missing_executable fuel ns h l pre cmd post e :
  Exporter.commands ns = pre ++ cmd :: post ->
  all_runnable fuel h (Some (fspath (Exporter.engine_path ns)))
    (map (map (Exporter.render fspath)) pre) ->
  executables h (map (Exporter.render fspath) cmd)
    (Some (fspath (Exporter.engine_path ns))) None = inl e ->
  exists s',
    Exporter.build_and_bundle fspath fuel ns (Store h l) = (Exc e, s')
    /\ started (log s') = started l ++ map (map (Exporter.render fspath)) pre
    /\ next_pid (world s') = next_pid h + length pre
    /\ exists before, log s' = before ++ [LogRecord RootLogger ERROR (MsgException e)].
Proof.
  intros Hcmds Hpre He. rewrite build_and_bundle_issues, Hcmds, map_app.
  cbn [map].
  destruct (issue_stops fuel (Some (fspath (Exporter.engine_path ns)))
              (map (map (Exporter.render fspath)) pre)
              (map (Exporter.render fspath) cmd)
              (map (map (Exporter.render fspath)) post) e h l Hpre)
    as (s' & E & Hpid & Hst & Hlast).
  - apply (commands_nonempty ns). rewrite Hcmds.
    apply in_or_app. right. now left.
  - exact He.
  - exists s'. split; [exact E|]. split; [exact Hst|].
    split; [now rewrite Hpid, length_map | exact Hlast].
Qed.

End ScriptFacts.

Lemma prompt_runnable exe cwd cmd prog :
  cmd <> [] -> exe cmd cwd None = inr prog ->
  length (written_err (script prog)) <= 4096 ->
  1 + length (written_out (script prog)) < 16 ->
  runnable 16 4096 exe cwd cmd prompt.
Proof.
  intros Hcmd Hexe Hfits Hfuel. split; [exact Hcmd|]. exists prog.
  split; [exact Hexe|]. split; [exact Hfits|].
  split; [repeat constructor|]. split; [|exact Hfuel].
  exists (Tick [] None), []. split; [reflexivity|]. intros [].
Qed.

Lemma build_and_bundle_runs_every_command_witness :
  exists s',
    Exporter.build_and_bundle show_path 16 sample_options (Store (machine all_fail) [])
    = (Ret tt, s')
    /\ next_pid (world s') = 1 + 6.
Proof.
  destruct (build_and_bundle_runs_every_command show_path 16 sample_options
              (machine all_fail) []) as (s' & E & _ & Hpid).
  - repeat (constructor;
            [apply (prompt_runnable _ _ _ failing_build);
             [discriminate | reflexivity | simpl; lia | simpl; lia]|]).
    constructor.
  - exists s'. split; [exact E | exact Hpid].
Defined.

Lemma build_and_bundle_stops_at_missing_executable_witness :
  exists s',
    Exporter.build_and_bundle show_path 16 sample_options (Store (machine only_cmake) [])
    = (Exc FileNotFoundError, s')
    /\ next_pid (world s') = 1 + 2.
Proof.
  destruct (build_and_bundle_stops_at_missing_executable show_path 16 sample_options
              (machine only_cmake) []
              [Exporter.configure_mono sample_options;
               Exporter.build_launchers sample_options]
              (Exporter.engine_asset_list_command sample_options)
              [Exporter.game_asset_list_command sample_options;
               Exporter.engine_bundle_command sample_options;
               Exporter.game_bundle_command sample_options]
              FileNotFoundError) as (s' & E & _ & Hpid & _).
  - reflexivity.
  - repeat (constructor;
            [apply (prompt_runnable _ _ _ failing_build);
             [discriminate | reflexivity | simpl; lia | simpl; lia]|]).
    constructor.
  - reflexivity.
  - exists s'. split; [exact E | exact Hpid].
Defined.

End DriverFacts.
